(** * Cannon 64-bit multithreaded FPVM: witness codec, thread hash-onion,
      preimage reader and ELF loader.

    A shallow embedding of
      - package [multithreaded]: the state, its witness and state hash, the
        thread proof, the thread serialisation and the hash-onion step;
      - package [exec]: the tracking preimage reader;
      - package [program]: [LoadELF];
    together with the properties of their byte layouts, of their panics and
    of their error results.

    Conventions.  A Go [uint64] is a [Z] and every place where the program
    truncates is written out ([wrap64], [u8]).  A Go [byte]/[uint8] is a
    [Byte.byte].  A Go [[]byte] is a [list byte], a fixed array [[n]T] is a
    [vec T n].  A Go panic is the [Panic] constructor of [outcome].  A
    pointer stands for what it points to: a state has a memory, a stack
    holds threads, and none of them is nil.  A slice is a list whose first
    element is the element of index 0: the top of a thread stack is the
    last element of its list. *)

From Stdlib Require Import ZArith Lia List.
From Stdlib Require Import Strings.String.
From Stdlib Require Strings.Byte.
From stdpp Require Import base tactics option list vector.

Import Stdlib.Init.Byte.

#[local] Open Scope Z_scope.

(* ===================================================================== *)
(** ** Bytes and machine integers *)
(* ===================================================================== *)

#[global] Instance byte_eq_dec : EqDecision byte := Stdlib.Strings.Byte.byte_eq_dec.

(** The numeric value of a byte, [uint64(b)] in the Go source. *)
Definition byte_val (b : byte) : Z := Z.of_N (Byte.to_N b).

(** The conversion [byte(v)] of an integer: the low eight bits are kept. *)
Definition u8 (v : Z) : byte :=
  match Byte.of_N (Z.to_N (v mod 256)) with
  | Some b => b
  | None => x00
  end.

(** The value a [uint64] variable holds after being assigned [v]. *)
Definition wrap64 (v : Z) : Z := v mod 2 ^ 64.

(** The values of a [uint64]. *)
Definition is_uint64 (v : Z) : Prop := 0 <= v < 2 ^ 64.

(** [int64(v)] of a [uint64] value: two's complement reinterpretation. *)
Definition to_int64 (v : Z) : Z :=
  let w := wrap64 v in if w <? 2 ^ 63 then w else w - 2 ^ 64.

(** [binary.BigEndian.AppendUint64]:
    [append(b, byte(v>>56), byte(v>>48), ..., byte(v>>8), byte(v))]. *)
Definition AppendUint64 (b : list byte) (v : Z) : list byte :=
  b ++ [ u8 (Z.shiftr v 56); u8 (Z.shiftr v 48); u8 (Z.shiftr v 40);
         u8 (Z.shiftr v 32); u8 (Z.shiftr v 24); u8 (Z.shiftr v 16);
         u8 (Z.shiftr v 8);  u8 v ].

(** The number a byte string denotes when read most significant byte
    first.  It is the yardstick the layouts below are measured against. *)
Definition be_value (bs : list byte) : Z :=
  fold_left (fun acc b => acc * 256 + byte_val b) bs 0.

(** [l[off : off+n]] for a slice expression that is in range. *)
Definition slice {A} (off n : nat) (l : list A) : list A := take n (drop off l).

(* ===================================================================== *)
(** ** Keccak-256

    [crypto.Keccak256Hash] of go-ethereum: the original Keccak with rate
    136 bytes, capacity 512 bits, domain byte [0x01] and 32 bytes of
    output.  The permutation works on 25 lanes of 64 bits, lane [(x, y)]
    being stored at index [x + 5 * y]. *)
(* ===================================================================== *)

Module Keccak.

Definition mask64 : Z := Z.ones 64.

Definition rotl64 (x : Z) (n : Z) : Z :=
  Z.land (Z.lor (Z.shiftl x n) (Z.shiftr x (64 - n))) mask64.

Definition not64 (x : Z) : Z := Z.lxor x mask64.

Definition lanes := list Z.

Definition lane (A : lanes) (x y : nat) : Z :=
  nth ((x mod 5) + 5 * (y mod 5))%nat A 0.

Definition build (f : nat -> nat -> Z) : lanes :=
  map (fun i => f (i mod 5)%nat (i / 5)%nat) (seq 0 25).

Definition round_constants : list Z :=
  [ 0x0000000000000001; 0x0000000000008082; 0x800000000000808A;
    0x8000000080008000; 0x000000000000808B; 0x0000000080000001;
    0x8000000080008081; 0x8000000000008009; 0x000000000000008A;
    0x0000000000000088; 0x0000000080008009; 0x000000008000000A;
    0x000000008000808B; 0x800000000000008B; 0x8000000000008089;
    0x8000000000008003; 0x8000000000008002; 0x8000000000000080;
    0x000000000000800A; 0x800000008000000A; 0x8000000080008081;
    0x8000000000008080; 0x0000000080000001; 0x8000000080008008 ].

Definition rotation_offsets : list Z :=
  [  0;  1; 62; 28; 27;
    36; 44;  6; 55; 20;
     3; 10; 43; 25; 39;
    41; 45; 15; 21;  8;
    18;  2; 61; 56; 14 ].

Definition theta (A : lanes) : lanes :=
  let C x := Z.lxor (lane A x 0) (Z.lxor (lane A x 1)
               (Z.lxor (lane A x 2) (Z.lxor (lane A x 3) (lane A x 4)))) in
  let D x := Z.lxor (C (x + 4)%nat) (rotl64 (C (x + 1)%nat) 1) in
  build (fun x y => Z.lxor (lane A x y) (D x)).

(** rho and pi in one pass: the lane that lands on [(X, Y)] comes from
    [(x, y) = (X + 3Y, X)]. *)
Definition rho_pi (A : lanes) : lanes :=
  build (fun X Y =>
           let x := ((X + 3 * Y) mod 5)%nat in
           let y := X in
           rotl64 (lane A x y) (nth (x + 5 * y)%nat rotation_offsets 0)).

Definition chi (A : lanes) : lanes :=
  build (fun x y =>
           Z.lxor (lane A x y)
                  (Z.land (not64 (lane A (x + 1) y)) (lane A (x + 2) y))).

Definition iota (rc : Z) (A : lanes) : lanes :=
  match A with
  | a :: rest => Z.lxor a rc :: rest
  | [] => []
  end.

Definition round (A : lanes) (rc : Z) : lanes := iota rc (chi (rho_pi (theta A))).

Definition keccak_f (A : lanes) : lanes := fold_left round round_constants A.

Definition rate : nat := 136.

(** Multi-rate padding with the Keccak domain byte. *)
Definition pad (msg : list byte) : list byte :=
  let q := (rate - length msg mod rate)%nat in
  match q with
  | 1%nat => msg ++ [x81]
  | _ => msg ++ x01 :: repeat x00 (q - 2) ++ [x80]
  end.

(** Little-endian lane [i] of a block. *)
Definition le_lane (block : list byte) (i : nat) : Z :=
  fold_right (fun b acc => byte_val b + 256 * acc) 0 (slice (8 * i) 8 block).

Definition xor_block (A : lanes) (block : list byte) : lanes :=
  imap (fun i a => if (i <? 17)%nat then Z.lxor a (le_lane block i) else a) A.

Fixpoint absorb (nblocks : nat) (A : lanes) (msg : list byte) : lanes :=
  match nblocks with
  | O => A
  | S n => absorb n (keccak_f (xor_block A (take rate msg))) (drop rate msg)
  end.

Definition lane_bytes (a : Z) : vec byte 8 :=
  [# u8 a; u8 (Z.shiftr a 8); u8 (Z.shiftr a 16); u8 (Z.shiftr a 24);
     u8 (Z.shiftr a 32); u8 (Z.shiftr a 40); u8 (Z.shiftr a 48);
     u8 (Z.shiftr a 56) ].

Definition squeeze (A : lanes) : vec byte 32 :=
  lane_bytes (nth 0 A 0) +++ lane_bytes (nth 1 A 0) +++
  lane_bytes (nth 2 A 0) +++ lane_bytes (nth 3 A 0).

Definition keccak256 (msg : list byte) : vec byte 32 :=
  let p := pad msg in
  squeeze (absorb (length p / rate) (repeat 0 25) p).

End Keccak.

(* ===================================================================== *)
(** ** Results of Go calls *)
(* ===================================================================== *)

(** A call either returns or panics with a message. *)
Inductive outcome (A : Type) : Type :=
| Ret (a : A)
| Panic (msg : string).
Arguments Ret {A} a.
Arguments Panic {A} msg.

#[global] Instance outcome_ret : MRet outcome := fun A a => Ret a.
#[global] Instance outcome_bind : MBind outcome := fun A B f m =>
  match m with
  | Ret a => f a
  | Panic msg => Panic msg
  end.

Definition returns {A} (m : outcome A) : Prop := exists a, m = Ret a.

(** [l[i]] with Go's bounds check. *)
Definition index {A} (l : list A) (i : nat) : outcome A :=
  match l !! i with
  | Some x => Ret x
  | None => Panic "index out of range"
  end.

(** A Go pair [(value, error)]. *)
Inductive result (E A : Type) : Type :=
| Ok (a : A)
| Err (e : E).
Arguments Ok {E A} a.
Arguments Err {E A} e.

(** The call returned a non-nil error. *)
Definition fails {E A} (r : outcome (result E A)) : Prop := exists e, r = Ret (Err e).

(** [common.Hash], a [[32]byte]. *)
Abbreviation Hash := (vec byte 32).

Definition zero_hash : Hash := vreplicate 32 x00.

Module crypto.
Definition Keccak256Hash (data : list byte) : Hash := Keccak.keccak256 data.
End crypto.

Module run.
(** Modelled from the spec: [run.AppendBoolToWitness] is not among the
    sources; the witness tables give a boolean field one byte, "(0/1)". *)
Definition AppendBoolToWitness (witnessData : list byte) (boolVal : bool) : list byte :=
  if boolVal then witnessData ++ [x01] else witnessData ++ [x00].
End run.

Module mipsevm64.
(** [mipsevm64.CpuScalars]: the four scalars the sources read and write. *)
Record CpuScalars : Type := {
  PC : Z;
  NextPC : Z;
  LO : Z;
  HI : Z;
}.

(** [mipsevm64.FPVMState], of which the sources use [GetMemory] on a state
    of any kind.  The state holds a pointer to its memory, so writing the
    memory changes the state: [withMemory]. *)
Class FPVMState (Memory T : Type) : Type := {
  GetMemory : T -> Memory;
  withMemory : T -> Memory -> T;
  GetMemory_withMemory : forall s m, GetMemory (withMemory s m) = m;
}.
End mipsevm64.

(* ===================================================================== *)
(** ** Package [exec]: the tracking preimage reader *)
(* ===================================================================== *)

Module exec.

(** Modelled from the spec: [exec.FutexEmptyAddr] is not among the
    sources; the spec gives [SENTINEL_EMPTY = 2^64 - 1]. *)
Definition FutexEmptyAddr : Z := 2 ^ 64 - 1.

(** [copy(dst[:], src)] into a fixed array: the first
    [min(n, len(src))] cells are overwritten, their number is returned. *)
Definition copy {n : nat} (dst : vec byte n) (src : list byte) : vec byte n * nat :=
  (fun_to_vec (fun i : fin n =>
                 match src !! fin_to_nat i with
                 | Some b => b
                 | None => dst !!! i
                 end),
   Nat.min n (length src)).

(** The oracle behind [mipsevm64.PreimageOracle].  The preimages are a
    function of the key; the calls the oracle has received are recorded,
    oldest first, so that what a reader asks of it can be observed. *)
Record PreimageOracle : Type := {
  preimages : Hash -> list byte;
  queried : list Hash;
  hinted : list (list byte);
}.

Definition po_GetPreimage (po : PreimageOracle) (k : Hash) : list byte * PreimageOracle :=
  (preimages po k,
   {| preimages := preimages po; queried := queried po ++ [k]; hinted := hinted po |}).

Definition po_Hint (po : PreimageOracle) (v : list byte) : PreimageOracle :=
  {| preimages := preimages po; queried := queried po; hinted := hinted po ++ [v] |}.

Record TrackingPreimageOracleReader : Type := {
  po : PreimageOracle;
  totalPreimageSize : Z;
  numPreimageRequests : Z;
  (* cached pre-image data, including 8 byte length prefix *)
  lastPreimage : list byte;
  (* key for above preimage *)
  lastPreimageKey : Hash;
  (* offset we last read from *)
  lastPreimageOffset : Z;
}.

(** [&TrackingPreimageOracleReader{po: po}]: the other fields are zero. *)
Definition NewTrackingPreimageOracleReader (po : PreimageOracle) : TrackingPreimageOracleReader :=
  {| po := po; totalPreimageSize := 0; numPreimageRequests := 0;
     lastPreimage := []; lastPreimageKey := zero_hash; lastPreimageOffset := 0 |}.

Definition Reset (p : TrackingPreimageOracleReader) : TrackingPreimageOracleReader :=
  {| po := po p; totalPreimageSize := totalPreimageSize p;
     numPreimageRequests := numPreimageRequests p;
     lastPreimage := lastPreimage p; lastPreimageKey := lastPreimageKey p;
     lastPreimageOffset := 2 ^ 64 - 1 |}.

Definition Hint (p : TrackingPreimageOracleReader) (v : list byte) : TrackingPreimageOracleReader :=
  {| po := po_Hint (po p) v; totalPreimageSize := totalPreimageSize p;
     numPreimageRequests := numPreimageRequests p;
     lastPreimage := lastPreimage p; lastPreimageKey := lastPreimageKey p;
     lastPreimageOffset := lastPreimageOffset p |}.

(** The two counters are Go [int]s; their overflow is not modelled. *)
Definition GetPreimage (p : TrackingPreimageOracleReader) (k : Hash)
  : list byte * TrackingPreimageOracleReader :=
  let '(preimage, po') := po_GetPreimage (po p) k in
  (preimage,
   {| po := po';
      totalPreimageSize := totalPreimageSize p + Z.of_nat (length preimage);
      numPreimageRequests := numPreimageRequests p + 1;
      lastPreimage := lastPreimage p; lastPreimageKey := lastPreimageKey p;
      lastPreimageOffset := lastPreimageOffset p |}).

(** The length-prefixed stream of a preimage. *)
Definition prefixed (data : list byte) : list byte :=
  let preimage := [] in
  let preimage := AppendUint64 preimage (Z.of_nat (length data)) in
  preimage ++ data.

(** [ReadPreimage] returns the reader as it leaves it, the chunk and
    the count.  [preimage[offset:]] panics when [offset] is beyond the
    length of [preimage]. *)
Definition ReadPreimage (p : TrackingPreimageOracleReader) (key : Hash) (offset : Z)
  : outcome (TrackingPreimageOracleReader * Hash * Z) :=
  let preimage := lastPreimage p in
  let '(preimage, p) :=
    if decide (key ≠ lastPreimageKey p) then
      let '(data, po') := po_GetPreimage (po p) key in
      let preimage := prefixed data in
      (preimage,
       {| po := po'; totalPreimageSize := totalPreimageSize p;
          numPreimageRequests := numPreimageRequests p;
          lastPreimage := preimage; lastPreimageKey := key;
          lastPreimageOffset := lastPreimageOffset p |})
    else (preimage, p) in
  let p := {| po := po p; totalPreimageSize := totalPreimageSize p;
              numPreimageRequests := numPreimageRequests p;
              lastPreimage := lastPreimage p; lastPreimageKey := lastPreimageKey p;
              lastPreimageOffset := offset |} in
  if decide (0 <= offset <= Z.of_nat (length preimage)) then
    let '(dat, n) := copy zero_hash (drop (Z.to_nat offset) preimage) in
    mret (p, dat, Z.of_nat n)
  else Panic "slice bounds out of range".

Definition TotalPreimageSize (p : TrackingPreimageOracleReader) : Z := totalPreimageSize p.

Definition NumPreimageRequests (p : TrackingPreimageOracleReader) : Z := numPreimageRequests p.

Definition LastPreimage (p : TrackingPreimageOracleReader) : Hash * list byte * Z :=
  (lastPreimageKey p, lastPreimage p, lastPreimageOffset p).

(** What the field comments say of the cache: [lastPreimage] is the
    prefixed stream of [lastPreimageKey]. *)
Definition cache_coherent (p : TrackingPreimageOracleReader) : Prop :=
  lastPreimage p = prefixed (preimages (po p) (lastPreimageKey p)).

(** Nothing has been fetched yet: the zero values of the two fields. *)
Definition never_fetched (p : TrackingPreimageOracleReader) : Prop :=
  lastPreimage p = [] /\ lastPreimageKey p = zero_hash.

(** One returning call of a method of the reader.  A panic ends the
    run. *)
Inductive step : TrackingPreimageOracleReader -> TrackingPreimageOracleReader -> Prop :=
| step_Reset p : step p (Reset p)
| step_Hint p v : step p (Hint p v)
| step_GetPreimage p k : step p (snd (GetPreimage p k))
| step_ReadPreimage p key offset p' dat n :
    ReadPreimage p key offset = Ret (p', dat, n) -> step p p'.

(** The readers a run can see, from [NewTrackingPreimageOracleReader]. *)
Inductive reachable (o : PreimageOracle) : TrackingPreimageOracleReader -> Prop :=
| reachable_new : reachable o (NewTrackingPreimageOracleReader o)
| reachable_step p p' : reachable o p -> step p p' -> reachable o p'.

(** What the caller of [ReadPreimage] gets: the chunk and the count. *)
Definition chunk_and_count (r : outcome (TrackingPreimageOracleReader * Hash * Z))
  : outcome (Hash * Z) :=
  x ← r; mret (snd (fst x), snd x).

(** An oracle that holds the five bytes "hello" under every key and has
    not been called, and a key that is not zero, for examples. *)
Definition hello_oracle : PreimageOracle :=
  {| preimages := fun _ => [x68; x65; x6c; x6c; x6f]; queried := []; hinted := [] |}.

Definition one_key : Hash := vinsert 31%fin x01 zero_hash.

End exec.

(* ===================================================================== *)
(** ** Package [multithreaded]: threads and state *)
(* ===================================================================== *)

Module multithreaded.

Import mipsevm64.

(** [SERIALIZED_THREAD_SIZE] and [THREAD_WITNESS_SIZE]. *)
Definition SERIALIZED_THREAD_SIZE : nat := 322.
Definition THREAD_WITNESS_SIZE : nat := SERIALIZED_THREAD_SIZE + 32.

(** [common.HexToHash("0xad3228b6...5fb5")]. *)
Definition EmptyThreadsRoot : Hash :=
  [# xad; x32; x28; xb6; x76; xf7; xd3; xcd; x42; x84; xa5; x44; x3f; x17; xf1; x96;
     x2b; x36; xe4; x91; xb3; x0a; x40; xb2; x40; x58; x49; xe5; x97; xba; x5f; xb5 ].

Module Thread.
Record ThreadState : Type := {
  ThreadId : Z;
  ExitCode : byte;
  Exited : bool;
  FutexAddr : Z;
  FutexVal : Z;
  FutexTimeoutStep : Z;
  Cpu : CpuScalars;
  Registers : vec Z 32;
}.
End Thread.
Export Thread (ThreadState).

Definition CreateEmptyThread : ThreadState :=
  let initThreadId := 0 in
  {| Thread.ThreadId := initThreadId;
     Thread.ExitCode := x00;
     Thread.Exited := false;
     Thread.Cpu := {| PC := 0; NextPC := 4; LO := 0; HI := 0 |};
     Thread.FutexAddr := exec.FutexEmptyAddr;
     Thread.FutexVal := 0;
     Thread.FutexTimeoutStep := 0;
     Thread.Registers := vreplicate 32 0 |}.

Definition serializeThread (t : ThreadState) : list byte :=
  let out := [] in
  let out := AppendUint64 out (Thread.ThreadId t) in
  let out := out ++ [Thread.ExitCode t] in
  let out := run.AppendBoolToWitness out (Thread.Exited t) in
  let out := AppendUint64 out (Thread.FutexAddr t) in
  let out := AppendUint64 out (Thread.FutexVal t) in
  let out := AppendUint64 out (Thread.FutexTimeoutStep t) in
  let out := AppendUint64 out (PC (Thread.Cpu t)) in
  let out := AppendUint64 out (NextPC (Thread.Cpu t)) in
  let out := AppendUint64 out (LO (Thread.Cpu t)) in
  let out := AppendUint64 out (HI (Thread.Cpu t)) in
  (* for _, r := range t.Registers *)
  fold_left AppendUint64 (vec_to_list (Thread.Registers t)) out.

(** Every 64-bit field of the thread holds a [uint64]. *)
Definition wf_thread (t : ThreadState) : Prop :=
  is_uint64 (Thread.ThreadId t) /\ is_uint64 (Thread.FutexAddr t) /\
  is_uint64 (Thread.FutexVal t) /\ is_uint64 (Thread.FutexTimeoutStep t) /\
  is_uint64 (PC (Thread.Cpu t)) /\ is_uint64 (NextPC (Thread.Cpu t)) /\
  is_uint64 (LO (Thread.Cpu t)) /\ is_uint64 (HI (Thread.Cpu t)) /\
  forall i : fin 32, is_uint64 (Thread.Registers t !!! i).

(** Two threads agree on every field, as [uint64] values. *)
Definition same_thread (t1 t2 : ThreadState) : Prop :=
  wrap64 (Thread.ThreadId t1) = wrap64 (Thread.ThreadId t2) /\
  Thread.ExitCode t1 = Thread.ExitCode t2 /\
  Thread.Exited t1 = Thread.Exited t2 /\
  wrap64 (Thread.FutexAddr t1) = wrap64 (Thread.FutexAddr t2) /\
  wrap64 (Thread.FutexVal t1) = wrap64 (Thread.FutexVal t2) /\
  wrap64 (Thread.FutexTimeoutStep t1) = wrap64 (Thread.FutexTimeoutStep t2) /\
  wrap64 (PC (Thread.Cpu t1)) = wrap64 (PC (Thread.Cpu t2)) /\
  wrap64 (NextPC (Thread.Cpu t1)) = wrap64 (NextPC (Thread.Cpu t2)) /\
  wrap64 (LO (Thread.Cpu t1)) = wrap64 (LO (Thread.Cpu t2)) /\
  wrap64 (HI (Thread.Cpu t1)) = wrap64 (HI (Thread.Cpu t2)) /\
  forall i : fin 32,
    wrap64 (Thread.Registers t1 !!! i) = wrap64 (Thread.Registers t2 !!! i).

Definition computeThreadRoot (prevStackRoot : Hash) (threadToPush : ThreadState) : Hash :=
  let hashedThread := crypto.Keccak256Hash (serializeThread threadToPush) in
  let hashData := [] in
  let hashData := hashData ++ vec_to_list prevStackRoot in
  let hashData := hashData ++ vec_to_list hashedThread in
  crypto.Keccak256Hash hashData.

(** The receiver of [calculateThreadStackRoot] is not used by its body. *)
Definition calculateThreadStackRoot (stack : list ThreadState) : Hash :=
  fold_left computeThreadRoot stack EmptyThreadsRoot.

(** [STATE_WITNESS_SIZE] and the offsets of the witness fields. *)
Definition STATE_WITNESS_SIZE : nat := 179.
Definition MEMROOT_WITNESS_OFFSET : nat := 0.
Definition PREIMAGE_KEY_WITNESS_OFFSET : nat := MEMROOT_WITNESS_OFFSET + 32.
Definition PREIMAGE_OFFSET_WITNESS_OFFSET : nat := PREIMAGE_KEY_WITNESS_OFFSET + 32.
Definition HEAP_WITNESS_OFFSET : nat := PREIMAGE_OFFSET_WITNESS_OFFSET + 8.
Definition EXITCODE_WITNESS_OFFSET : nat := HEAP_WITNESS_OFFSET + 8.
Definition EXITED_WITNESS_OFFSET : nat := EXITCODE_WITNESS_OFFSET + 1.
Definition STEP_WITNESS_OFFSET : nat := EXITED_WITNESS_OFFSET + 1.
Definition STEPS_SINCE_CONTEXT_SWITCH_WITNESS_OFFSET : nat := STEP_WITNESS_OFFSET + 8.
Definition WAKEUP_WITNESS_OFFSET : nat := STEPS_SINCE_CONTEXT_SWITCH_WITNESS_OFFSET + 8.
Definition TRAVERSE_RIGHT_WITNESS_OFFSET : nat := WAKEUP_WITNESS_OFFSET + 8.
Definition LEFT_THREADS_ROOT_WITNESS_OFFSET : nat := TRAVERSE_RIGHT_WITNESS_OFFSET + 1.
Definition RIGHT_THREADS_ROOT_WITNESS_OFFSET : nat := LEFT_THREADS_ROOT_WITNESS_OFFSET + 32.
Definition THREAD_ID_WITNESS_OFFSET : nat := RIGHT_THREADS_ROOT_WITNESS_OFFSET + 32.

(** The offsets in the order of the fields, closed by the size. *)
Definition witness_offsets : list nat :=
  [ MEMROOT_WITNESS_OFFSET; PREIMAGE_KEY_WITNESS_OFFSET; PREIMAGE_OFFSET_WITNESS_OFFSET;
    HEAP_WITNESS_OFFSET; EXITCODE_WITNESS_OFFSET; EXITED_WITNESS_OFFSET;
    STEP_WITNESS_OFFSET; STEPS_SINCE_CONTEXT_SWITCH_WITNESS_OFFSET;
    WAKEUP_WITNESS_OFFSET; TRAVERSE_RIGHT_WITNESS_OFFSET;
    LEFT_THREADS_ROOT_WITNESS_OFFSET; RIGHT_THREADS_ROOT_WITNESS_OFFSET;
    THREAD_ID_WITNESS_OFFSET; STATE_WITNESS_SIZE ].

(** The error [StateHash] builds with [fmt.Errorf]:
    "Invalid witness length. Got %d, expected %d". *)
Inductive WitnessError : Type :=
| InvalidWitnessLength (got expected : nat).

Section State.

(** [memory.Memory] and its Merkle root, and [vmstatus.VmStatus], live in
    packages that are not among the sources: they are parameters. *)
Context {memory_Memory : Type}.
Variable MerkleRoot : memory_Memory -> Hash.
Variable VmStatus : bool -> byte -> byte.
Variable NewMemory : memory_Memory.

Record State : Type := {
  Memory : memory_Memory;
  PreimageKey : Hash;
  PreimageOffset : Z;
  Heap : Z;
  ExitCode : byte;
  Exited : bool;
  Step : Z;
  StepsSinceLastContextSwitch : Z;
  Wakeup : Z;
  TraverseRight : bool;
  LeftThreadStack : list ThreadState;
  RightThreadStack : list ThreadState;
  NextThreadId : Z;
  LastHint : list byte;
}.

Definition getActiveThreadStack (s : State) : list ThreadState :=
  if TraverseRight s then RightThreadStack s else LeftThreadStack s.

Definition getCurrentThread (s : State) : outcome ThreadState :=
  let activeStack := getActiveThreadStack s in
  let activeStackSize := length activeStack in
  if decide (activeStackSize = 0%nat) then Panic "Active thread stack is empty"
  else index activeStack (activeStackSize - 1).

(** The stacks hold pointers: a write to the thread [getCurrentThread]
    returned is a write to the top of the active stack. *)
Definition setCurrentThread (s : State) (t : ThreadState) : State :=
  let top := (length (getActiveThreadStack s) - 1)%nat in
  if TraverseRight s
  then {| Memory := Memory s; PreimageKey := PreimageKey s;
          PreimageOffset := PreimageOffset s; Heap := Heap s;
          ExitCode := ExitCode s; Exited := Exited s; Step := Step s;
          StepsSinceLastContextSwitch := StepsSinceLastContextSwitch s;
          Wakeup := Wakeup s; TraverseRight := TraverseRight s;
          LeftThreadStack := LeftThreadStack s;
          RightThreadStack := <[top := t]> (RightThreadStack s);
          NextThreadId := NextThreadId s; LastHint := LastHint s |}
  else {| Memory := Memory s; PreimageKey := PreimageKey s;
          PreimageOffset := PreimageOffset s; Heap := Heap s;
          ExitCode := ExitCode s; Exited := Exited s; Step := Step s;
          StepsSinceLastContextSwitch := StepsSinceLastContextSwitch s;
          Wakeup := Wakeup s; TraverseRight := TraverseRight s;
          LeftThreadStack := <[top := t]> (LeftThreadStack s);
          RightThreadStack := RightThreadStack s;
          NextThreadId := NextThreadId s; LastHint := LastHint s |}.

Definition setHeap (s : State) (h : Z) : State :=
  {| Memory := Memory s; PreimageKey := PreimageKey s;
     PreimageOffset := PreimageOffset s; Heap := h;
     ExitCode := ExitCode s; Exited := Exited s; Step := Step s;
     StepsSinceLastContextSwitch := StepsSinceLastContextSwitch s;
     Wakeup := Wakeup s; TraverseRight := TraverseRight s;
     LeftThreadStack := LeftThreadStack s;
     RightThreadStack := RightThreadStack s;
     NextThreadId := NextThreadId s; LastHint := LastHint s |}.

Definition setMemory (s : State) (m : memory_Memory) : State :=
  {| Memory := m; PreimageKey := PreimageKey s;
     PreimageOffset := PreimageOffset s; Heap := Heap s;
     ExitCode := ExitCode s; Exited := Exited s; Step := Step s;
     StepsSinceLastContextSwitch := StepsSinceLastContextSwitch s;
     Wakeup := Wakeup s; TraverseRight := TraverseRight s;
     LeftThreadStack := LeftThreadStack s;
     RightThreadStack := RightThreadStack s;
     NextThreadId := NextThreadId s; LastHint := LastHint s |}.

(** Fields the composite literal leaves out take their zero value. *)
Definition CreateEmptyState : State :=
  let initThread := CreateEmptyThread in
  {| Memory := NewMemory;
     PreimageKey := zero_hash;
     PreimageOffset := 0;
     Heap := 0;
     ExitCode := x00;
     Exited := false;
     Step := 0;
     StepsSinceLastContextSwitch := 0;
     Wakeup := exec.FutexEmptyAddr;
     TraverseRight := false;
     LeftThreadStack := [initThread];
     RightThreadStack := [];
     NextThreadId := wrap64 (Thread.ThreadId initThread + 1);
     LastHint := [] |}.

Definition CreateInitialState (pc heapStart : Z) : outcome State :=
  let state := CreateEmptyState in
  currentThread ← getCurrentThread state;
  let cpu := {| PC := pc; NextPC := wrap64 (pc + 4);
                LO := LO (Thread.Cpu currentThread);
                HI := HI (Thread.Cpu currentThread) |} in
  let currentThread :=
    {| Thread.ThreadId := Thread.ThreadId currentThread;
       Thread.ExitCode := Thread.ExitCode currentThread;
       Thread.Exited := Thread.Exited currentThread;
       Thread.FutexAddr := Thread.FutexAddr currentThread;
       Thread.FutexVal := Thread.FutexVal currentThread;
       Thread.FutexTimeoutStep := Thread.FutexTimeoutStep currentThread;
       Thread.Cpu := cpu;
       Thread.Registers := Thread.Registers currentThread |} in
  let state := setCurrentThread state currentThread in
  mret (setHeap state heapStart).

Definition getRightThreadStackRoot (s : State) : Hash :=
  calculateThreadStackRoot (RightThreadStack s).

Definition getLeftThreadStackRoot (s : State) : Hash :=
  calculateThreadStackRoot (LeftThreadStack s).

Definition GetPC (s : State) : outcome Z :=
  activeThread ← getCurrentThread s;
  mret (PC (Thread.Cpu activeThread)).

Definition GetRegisters (s : State) : outcome (vec Z 32) :=
  activeThread ← getCurrentThread s;
  mret (Thread.Registers activeThread).

Definition getCpu (s : State) : outcome CpuScalars :=
  activeThread ← getCurrentThread s;
  mret (Thread.Cpu activeThread).

Definition GetExitCode (s : State) : byte := ExitCode s.
Definition GetExited (s : State) : bool := Exited s.
Definition GetStep (s : State) : Z := Step s.
Definition VMStatus (s : State) : byte := VmStatus (Exited s) (ExitCode s).
Definition GetMemory (s : State) : memory_Memory := Memory s.

Definition stateHashFromWitness (sw : list byte) : outcome Hash :=
  if decide (length sw ≠ STATE_WITNESS_SIZE) then Panic "Invalid witness length"
  else
    let hash := crypto.Keccak256Hash sw in
    exitCode ← index sw EXITCODE_WITNESS_OFFSET;
    exited ← index sw EXITED_WITNESS_OFFSET;
    let status := VmStatus (bool_decide (exited = x01)) exitCode in
    mret (vinsert 0%fin status hash).

Definition EncodeWitness (s : State) : outcome (list byte * Hash) :=
  let out := [] in
  let memRoot := MerkleRoot (Memory s) in
  let out := out ++ vec_to_list memRoot in
  let out := out ++ vec_to_list (PreimageKey s) in
  let out := AppendUint64 out (PreimageOffset s) in
  let out := AppendUint64 out (Heap s) in
  let out := out ++ [ExitCode s] in
  let out := run.AppendBoolToWitness out (Exited s) in
  let out := AppendUint64 out (Step s) in
  let out := AppendUint64 out (StepsSinceLastContextSwitch s) in
  let out := AppendUint64 out (Wakeup s) in
  let leftStackRoot := getLeftThreadStackRoot s in
  let rightStackRoot := getRightThreadStackRoot s in
  let out := run.AppendBoolToWitness out (TraverseRight s) in
  let out := out ++ vec_to_list leftStackRoot in
  let out := out ++ vec_to_list rightStackRoot in
  let out := AppendUint64 out (NextThreadId s) in
  h ← stateHashFromWitness out;
  mret (out, h).

Definition EncodeThreadProof (s : State) : outcome (list byte) :=
  let activeStack := getActiveThreadStack s in
  let threadCount := length activeStack in
  if decide (threadCount = 0%nat) then Panic "Invalid empty thread stack"
  else
    activeThread ← index activeStack (threadCount - 1);
    let otherThreads := take (threadCount - 1) activeStack in
    let threadBytes := serializeThread activeThread in
    let otherThreadsWitness := calculateThreadStackRoot otherThreads in
    let out := [] in
    let out := out ++ threadBytes in
    let out := out ++ vec_to_list otherThreadsWitness in
    mret out.

Definition threadCount (s : State) : nat :=
  (length (LeftThreadStack s) + length (RightThreadStack s))%nat.

(** [StateWitness.StateHash]: the Go pair [(common.Hash, error)]. *)
Definition StateHash (sw : list byte) : outcome (Hash * option WitnessError) :=
  if decide (length sw ≠ STATE_WITNESS_SIZE)
  then mret (zero_hash, Some (InvalidWitnessLength (length sw) STATE_WITNESS_SIZE))
  else h ← stateHashFromWitness sw; mret (h, None).

(** A call of [StateHash] failed: it returned a non-nil error. *)
Definition failed (r : outcome (Hash * option WitnessError)) : Prop :=
  exists h e, r = Ret (h, Some e).

Definition GetStateHashFn : list byte -> outcome (Hash * option WitnessError) :=
  fun sw => StateHash sw.

(** Two states agree on everything the witness holds: the memory root,
    the preimage key, the scalar fields as [uint64] values, and the roots
    of the two thread stacks. *)
Definition same_witnessed (s1 s2 : State) : Prop :=
  MerkleRoot (Memory s1) = MerkleRoot (Memory s2) /\
  PreimageKey s1 = PreimageKey s2 /\
  wrap64 (PreimageOffset s1) = wrap64 (PreimageOffset s2) /\
  wrap64 (Heap s1) = wrap64 (Heap s2) /\
  ExitCode s1 = ExitCode s2 /\
  Exited s1 = Exited s2 /\
  wrap64 (Step s1) = wrap64 (Step s2) /\
  wrap64 (StepsSinceLastContextSwitch s1) = wrap64 (StepsSinceLastContextSwitch s2) /\
  wrap64 (Wakeup s1) = wrap64 (Wakeup s2) /\
  TraverseRight s1 = TraverseRight s2 /\
  calculateThreadStackRoot (LeftThreadStack s1) = calculateThreadStackRoot (LeftThreadStack s2) /\
  calculateThreadStackRoot (RightThreadStack s1) = calculateThreadStackRoot (RightThreadStack s2) /\
  wrap64 (NextThreadId s1) = wrap64 (NextThreadId s2).

End State.

(** A second thread, with id 1 and a PC of its own. *)
Definition second_thread : ThreadState :=
  {| Thread.ThreadId := 1;
     Thread.ExitCode := x00;
     Thread.Exited := false;
     Thread.Cpu := {| PC := 0x1000; NextPC := 0x1004; LO := 0; HI := 0 |};
     Thread.FutexAddr := exec.FutexEmptyAddr;
     Thread.FutexVal := 0;
     Thread.FutexTimeoutStep := 0;
     Thread.Registers := vreplicate 32 0 |}.

(** A state in right traversal, over the one-point memory: the left stack
    is empty and the right stack holds the first thread and, on top of it,
    the second. *)
Definition right_traversal_state : @State unit :=
  {| Memory := tt;
     PreimageKey := zero_hash;
     PreimageOffset := 0;
     Heap := 0;
     ExitCode := x00;
     Exited := false;
     Step := 0;
     StepsSinceLastContextSwitch := 0;
     Wakeup := exec.FutexEmptyAddr;
     TraverseRight := true;
     LeftThreadStack := [];
     RightThreadStack := [CreateEmptyThread; second_thread];
     NextThreadId := 2;
     LastHint := [] |}.

End multithreaded.

(* ===================================================================== *)
(** ** Package [program]: the ELF loader *)
(* ===================================================================== *)

Module program.

Import mipsevm64.

Definition HEAP_START : Z := 0x1000000000000000.
Definition PT_LOAD : Z := 1.
Definition MIPS_ABIFLAGS : Z := 0x70000003.

(** [elf.Prog]: the header fields [LoadELF] reads and the bytes the
    segment's [ReaderAt] serves. *)
Record Prog : Type := {
  Type_ : Z;
  Vaddr : Z;
  Filesz : Z;
  Memsz : Z;
  content : list byte;
}.

Record File : Type := {
  Entry : Z;
  Progs : list Prog;
}.

(** The four [fmt.Errorf] results, with the values they print. *)
Inductive LoadError (MemErr : Type) : Type :=
| InvalidPTLoadFileSize (i : nat) (filesz memsz : Z)
| NonLoadSizeMismatch (i : nat) (filesz memsz : Z)
| OverlapsHeap (i : nat) (vaddr vend memsz : Z)
| ReadSegmentFailed (i : nat) (err : MemErr).
Arguments InvalidPTLoadFileSize {MemErr}.
Arguments NonLoadSizeMismatch {MemErr}.
Arguments OverlapsHeap {MemErr}.
Arguments ReadSegmentFailed {MemErr}.

(** What [io.NewSectionReader(prog, 0, int64(prog.Filesz))] yields: the
    first [Filesz] bytes the segment serves.  A [Filesz] of [2^63] or more
    is a negative count, for which the reader is left without a bound. *)
Definition sectionBytes (prog : Prog) : list byte :=
  let n := to_int64 (Filesz prog) in
  if n <? 0 then content prog else take (Z.to_nat n) (content prog).

(** The header fields are [uint64] values. *)
Definition wf_prog (p : Prog) : Prop :=
  0 <= Vaddr p < 2 ^ 64 /\ 0 <= Filesz p < 2 ^ 64 /\ 0 <= Memsz p < 2 ^ 64.

Definition skipped (p : Prog) : Prop := Type_ p = MIPS_ABIFLAGS.

(** The sizes the loader accepts: equal, or a [PT_LOAD] segment with
    less in the file than in memory. *)
Definition sizes_ok (p : Prog) : Prop :=
  Filesz p = Memsz p \/ (Type_ p = PT_LOAD /\ Filesz p < Memsz p).

(** The segment occupies [Vaddr, Vaddr + Memsz). *)
Definition ends_below_heap (p : Prog) : Prop := Vaddr p + Memsz p < HEAP_START.
Definition ends_above_heap (p : Prog) : Prop := HEAP_START < Vaddr p + Memsz p < 2 ^ 64.
Definition entirely_below_heap (p : Prog) : Prop := Vaddr p + Memsz p <= HEAP_START.
Definition straddles_heap (p : Prog) : Prop :=
  Vaddr p < HEAP_START /\ HEAP_START < Vaddr p + Memsz p.

(** The zero padding of the segment is one [make] returns: where the
    loader pads, a [PT_LOAD] segment with less in the file than in memory,
    the [Memsz - Filesz] bytes fit an [int] and are no more than [maxAlloc],
    the most the run time allocates. *)
Definition allocable (maxAlloc : Z) (p : Prog) : Prop :=
  Type_ p = PT_LOAD -> Filesz p < Memsz p ->
  Memsz p - Filesz p < 2 ^ 63 /\ Memsz p - Filesz p <= maxAlloc.

(** A segment, not skipped, at which the loop stops with an error of its
    checks: refused sizes, or an end above [HEAP_START]. *)
Definition offending (p : Prog) : Prop :=
  ~ skipped p /\ (~ sizes_ok p \/ ends_above_heap p).

(** Segments that neither end at [HEAP_START] itself nor reach the end of
    the address space. *)
Definition regular (p : Prog) : Prop :=
  skipped p \/ ~ sizes_ok p \/ ends_below_heap p \/ ends_above_heap p.

(** A segment the loop passes over without a panic and without an error
    of its checks. *)
Definition accepted (maxAlloc : Z) (p : Prog) : Prop :=
  skipped p \/ (sizes_ok p /\ allocable maxAlloc p /\ ends_below_heap p).

(** A segment the loop passes over as the code computes it: skipped, or
    with accepted sizes and an end, as a [uint64], below [HEAP_START]. *)
Definition passes64 (p : Prog) : Prop :=
  skipped p \/ (sizes_ok p /\ wrap64 (Vaddr p + Memsz p) < HEAP_START).

(** The bytes of the file followed by [Memsz - Filesz] zero bytes. *)
Definition image (p : Prog) : list byte :=
  sectionBytes p ++ repeat x00 (Z.to_nat (Memsz p - Filesz p)).

Section LoadELF.

(** [memory.Memory.SetMemoryRange] is not among the sources. *)
Context {Memory MemErr T : Type} `{FPVMState Memory T}.

(** The most the run time allocates for one slice.  It belongs to the
    platform, not to the sources ([runtime.maxAlloc], [2^48] bytes on
    64-bit Linux). *)
Variable maxAlloc : Z.
Variable SetMemoryRange : Memory -> Z -> list byte -> result MemErr Memory.
Variable initState : Z -> Z -> outcome T.

(** [make([]byte, n)] for a [uint64] [n]: [n] zero bytes, or a run-time
    panic when [n] does not fit an [int] or is more than the run time
    allocates. *)
Definition make (n : Z) : outcome (list byte) :=
  if decide (n < 2 ^ 63 /\ n <= maxAlloc) then Ret (repeat x00 (Z.to_nat n))
  else Panic "runtime error: makeslice: len out of range".

(** The reader built for a segment: the bytes it serves when the segment
    passes the size checks, or the error of the size checks, or the panic
    of [make] for the padding. *)
Definition segmentReader (i : nat) (prog : Prog)
  : outcome (result (LoadError MemErr) (list byte)) :=
  let r := sectionBytes prog in
  if decide (Filesz prog ≠ Memsz prog) then
    if decide (Type_ prog = PT_LOAD) then
      if decide (Filesz prog < Memsz prog) then
        zeros ← make (Memsz prog - Filesz prog);
        mret (Ok (r ++ zeros))
      else mret (Err (InvalidPTLoadFileSize i (Filesz prog) (Memsz prog)))
    else mret (Err (NonLoadSizeMismatch i (Filesz prog) (Memsz prog)))
  else mret (Ok r).

(** The body of [for i, prog := range f.Progs], from index [i] on. *)
Fixpoint loadProgs (i : nat) (progs : list Prog) (s : T)
  : outcome (result (LoadError MemErr) T) :=
  match progs with
  | [] => Ret (Ok s)
  | prog :: rest =>
      if decide (Type_ prog = MIPS_ABIFLAGS) then loadProgs (S i) rest s
      else
        match segmentReader i prog with
        | Panic msg => Panic msg
        | Ret (Err e) => Ret (Err e)
        | Ret (Ok r) =>
            if decide (wrap64 (Vaddr prog + Memsz prog) >= HEAP_START) then
              Ret (Err (OverlapsHeap i (Vaddr prog) (wrap64 (Vaddr prog + Memsz prog))
                                     (Memsz prog)))
            else
              match SetMemoryRange (GetMemory s) (Vaddr prog) r with
              | Err err => Ret (Err (ReadSegmentFailed i err))
              | Ok m => loadProgs (S i) rest (withMemory s m)
              end
        end
  end.

(** The memory after the images of the segments that are not skipped
    have been written in order. *)
Fixpoint writeSegments (m : Memory) (progs : list Prog) : result MemErr Memory :=
  match progs with
  | [] => Ok m
  | p :: rest =>
      if decide (Type_ p = MIPS_ABIFLAGS) then writeSegments m rest
      else match SetMemoryRange m (Vaddr p) (image p) with
           | Ok m' => writeSegments m' rest
           | Err e => Err e
           end
  end.

(** The segment index an error reports. *)
Definition error_index (e : LoadError MemErr) : nat :=
  match e with
  | InvalidPTLoadFileSize i _ _ => i
  | NonLoadSizeMismatch i _ _ => i
  | OverlapsHeap i _ _ _ => i
  | ReadSegmentFailed i _ => i
  end.

(** What an error says of the segment [j] of [progs], loaded into the
    memory [m0]: the segments before it pass, it is not skipped, and it has
    the defect and the values the error carries. *)
Definition explains (progs : list Prog) (m0 : Memory) (j : nat) (e : LoadError MemErr) : Prop :=
  exists p,
    progs !! j = Some p /\ ~ skipped p /\ Forall passes64 (take j progs) /\
    match e with
    | InvalidPTLoadFileSize _ fs ms =>
        Type_ p = PT_LOAD /\ Memsz p < Filesz p /\ fs = Filesz p /\ ms = Memsz p
    | NonLoadSizeMismatch _ fs ms =>
        Type_ p ≠ PT_LOAD /\ Filesz p ≠ Memsz p /\ fs = Filesz p /\ ms = Memsz p
    | OverlapsHeap _ va ve ms =>
        sizes_ok p /\ HEAP_START <= wrap64 (Vaddr p + Memsz p) /\
        va = Vaddr p /\ ve = wrap64 (Vaddr p + Memsz p) /\ ms = Memsz p
    | ReadSegmentFailed _ err =>
        sizes_ok p /\ wrap64 (Vaddr p + Memsz p) < HEAP_START /\
        exists m, writeSegments m0 (take j progs) = Ok m /\
                  SetMemoryRange m (Vaddr p) (image p) = Err err
    end.

(** What a panic of the loop says of the segment [j] of [progs], loaded
    into the memory [m0]: the segments before it pass and are written, it is
    a [PT_LOAD] segment, not skipped, with less in the file than in memory,
    and its padding is one [make] refuses. *)
Definition panics_at (progs : list Prog) (m0 : Memory) (j : nat) (msg : string) : Prop :=
  exists p,
    progs !! j = Some p /\ ~ skipped p /\ Forall passes64 (take j progs) /\
    (exists m, writeSegments m0 (take j progs) = Ok m) /\
    Type_ p = PT_LOAD /\ Filesz p < Memsz p /\
    (2 ^ 63 <= Memsz p - Filesz p \/ maxAlloc < Memsz p - Filesz p) /\
    msg = "runtime error: makeslice: len out of range"%string.

Definition LoadELF (f : File) : outcome (result (LoadError MemErr) T) :=
  s ← initState (Entry f) HEAP_START;
  loadProgs 0 (Progs f) s.

End LoadELF.

(** The multithreaded state as an [FPVMState]. *)
#[global] Instance State_FPVMState {Memory : Type} :
  FPVMState Memory (@multithreaded.State Memory) :=
  {| GetMemory := multithreaded.GetMemory;
     withMemory := multithreaded.setMemory;
     GetMemory_withMemory := fun s m => eq_refl |}.

(** A memory that records what is written to it, for examples. *)
Definition WriteLog : Type := list (Z * list byte).
Definition logSetMemoryRange (m : WriteLog) (addr : Z) (r : list byte)
  : result unit WriteLog := Ok (m ++ [(addr, r)]).

(** The allocation limit of the examples, that of 64-bit Linux. *)
Definition maxAlloc64 : Z := 2 ^ 48.

Definition loadIntoLog (f : File)
  : outcome (result (LoadError unit) (@multithreaded.State WriteLog)) :=
  LoadELF maxAlloc64 logSetMemoryRange (multithreaded.CreateInitialState []) f.

(** An ABI-flags segment, then a [PT_LOAD] segment of two file bytes and
    four bytes of memory. *)
Definition padded_elf : File :=
  {| Entry := 0x400000;
     Progs := [ {| Type_ := MIPS_ABIFLAGS; Vaddr := 0x1000; Filesz := 1; Memsz := 24;
                   content := [xff] |};
                {| Type_ := PT_LOAD; Vaddr := 0x400000; Filesz := 2; Memsz := 4;
                   content := [x01; x02] |} ] |}.

(** One [PT_LOAD] segment of four bytes, a page above [HEAP_START]. *)
Definition above_heap_elf : File :=
  {| Entry := 0x400000;
     Progs := [ {| Type_ := PT_LOAD; Vaddr := HEAP_START + 0x1000; Filesz := 4; Memsz := 4;
                   content := [x01; x02; x03; x04] |} ] |}.

(** One [PT_LOAD] segment whose last byte is the byte before
    [HEAP_START]. *)
Definition boundary_elf : File :=
  {| Entry := 0x400000;
     Progs := [ {| Type_ := PT_LOAD; Vaddr := HEAP_START - 4; Filesz := 4; Memsz := 4;
                   content := [x01; x02; x03; x04] |} ] |}.

(** One [PT_LOAD] segment that starts below [HEAP_START] and runs past
    the end of the 64-bit address space. *)
Definition wrapping_elf : File :=
  {| Entry := 0x400000;
     Progs := [ {| Type_ := PT_LOAD; Vaddr := 0x400000;
                   Filesz := 2 ^ 64 - 0x400000 + 2;
                   Memsz := 2 ^ 64 - 0x400000 + 2; content := [] |} ] |}.

(** A [PT_LOAD] segment with an empty file part and [2^60 + 1] bytes of
    memory, which end above [HEAP_START], and the file of that segment. *)
Definition huge_padding_prog : Prog :=
  {| Type_ := PT_LOAD; Vaddr := 0; Filesz := 0; Memsz := 2 ^ 60 + 1; content := [] |}.

Definition huge_padding_elf : File :=
  {| Entry := 0x400000; Progs := [huge_padding_prog] |}.

(** A [PT_LOAD] segment of two file bytes and four bytes of memory whose
    last two bytes lie past the end of the 64-bit address space. *)
Definition wrapping_padded_prog : Prog :=
  {| Type_ := PT_LOAD; Vaddr := 2 ^ 64 - 2; Filesz := 2; Memsz := 4;
     content := [x01; x02] |}.

(** A [PT_LOAD] segment of two file bytes and four bytes of memory whose
    last byte is the byte before [HEAP_START]. *)
Definition boundary_padded_prog : Prog :=
  {| Type_ := PT_LOAD; Vaddr := HEAP_START - 4; Filesz := 2; Memsz := 4;
     content := [x01; x02] |}.

(** One ABI-flags segment with more bytes in the file than in memory, in
    the heap. *)
Definition flags_only_elf : File :=
  {| Entry := 0x400000;
     Progs := [ {| Type_ := MIPS_ABIFLAGS; Vaddr := HEAP_START + 8; Filesz := 24; Memsz := 1;
                   content := [xff] |} ] |}.

(** The reading of the heap condition as "straddles", to compare the
    loader with: some segment that is not skipped has sizes the loader
    refuses or straddles [HEAP_START]. *)
Definition refused_or_straddling (f : File) : Prop :=
  Exists (fun p => ~ skipped p /\ (~ sizes_ok p \/ straddles_heap p)) (Progs f).

End program.

(* ===================================================================== *)
(** ** Package [deployer]: the configure command *)
(* ===================================================================== *)

Module deployer.

(** The four flags the command reads with [ctx.String]. *)
Inductive FlagName : Type :=
| InfileFlagName
| OutfileFlagName
| ConfigureMnemonicFlagName
| L1RPCURLFlagName.

Section ConfigureCLI.

(** The L1 client, the key generator, the chain intent, the deploy config
    and the errors of the functions called are not among the sources. *)
Context {Client KeyGenerator ChainIntent Config E : Type}.

(** [DeploymentState]: the two fields the command reads and writes.  The
    intent is a pointer that the command compares with nil. *)
Record DeploymentState : Type := {
  Intent : option ChainIntent;
  DeployConfig : Config;
}.

(** The errors the command returns: [fmt.Errorf] of a message, [fmt.Errorf]
    of a message wrapping an error with [%w], or the error of
    [WriteDeploymentState] as it is. *)
Inductive Error : Type :=
| Errorf (msg : string)
| Wrapf (msg : string) (err : E)
| Returned (err : E).

(** The calls the command makes, as they can be observed from outside. *)
Inductive Call : Type :=
| CallDial (rawurl : string)
| CallReadDeploymentState (path : string)
| CallNewMnemonicKeyGenerator (mnemonic : string)
| CallNewDeployConfig (keygen : KeyGenerator) (l1Client : Client) (intent : ChainIntent)
| CallWriteDeploymentState (path : string) (state : DeploymentState).

(** What the functions called answer. *)
Record World : Type := {
  Dial : string -> result E Client;
  ReadDeploymentState : string -> result E DeploymentState;
  NewMnemonicKeyGenerator : string -> result E KeyGenerator;
  NewDeployConfig : KeyGenerator -> Client -> ChainIntent -> result E Config;
  WriteDeploymentState : string -> DeploymentState -> option E;
}.

(** The function [ConfigureCLI] returns, applied to a context, in a world:
    the calls made, oldest first, and the error returned, [None] for nil. *)
Definition ConfigureCLI (world : World) (ctx : FlagName -> string)
  : list Call * option Error :=
  let infile := ctx InfileFlagName in
  let outfile := ctx OutfileFlagName in
  let mnemonic := ctx ConfigureMnemonicFlagName in
  let l1RPCURL := ctx L1RPCURLFlagName in
  if (infile =? "")%string then ([], Some (Errorf "infile must be specified"))
  else
    let outfile := if (outfile =? "")%string then infile else outfile in
    if (mnemonic =? "")%string then ([], Some (Errorf "mnemonic must be specified"))
    else if (l1RPCURL =? "")%string then ([], Some (Errorf "l1-rpc-url must be specified"))
    else
      let calls := [CallDial l1RPCURL] in
      match Dial world l1RPCURL with
      | Err err => (calls, Some (Wrapf "failed to connect to L1 RPC" err))
      | Ok l1Client =>
          let calls := calls ++ [CallReadDeploymentState infile] in
          match ReadDeploymentState world infile with
          | Err err => (calls, Some (Wrapf "failed to read chain intent" err))
          | Ok state =>
              match Intent state with
              | None => (calls, Some (Errorf "chain intent is nil"))
              | Some intent =>
                  let calls := calls ++ [CallNewMnemonicKeyGenerator mnemonic] in
                  match NewMnemonicKeyGenerator world mnemonic with
                  | Err err => (calls, Some (Wrapf "failed to create key generator" err))
                  | Ok keygen =>
                      let calls := calls ++ [CallNewDeployConfig keygen l1Client intent] in
                      match NewDeployConfig world keygen l1Client intent with
                      | Err err => (calls, Some (Wrapf "failed to create deploy config" err))
                      | Ok deployConfig =>
                          let written :=
                            {| Intent := Intent state; DeployConfig := deployConfig |} in
                          (calls ++ [CallWriteDeploymentState outfile written],
                           match WriteDeploymentState world outfile written with
                           | Some err => Some (Returned err)
                           | None => None
                           end)
                      end
                  end
              end
          end
      end.

(** The file the command writes to. *)
Definition target (ctx : FlagName -> string) : string :=
  if (ctx OutfileFlagName =? "")%string then ctx InfileFlagName else ctx OutfileFlagName.

Definition is_write (c : Call) : Prop :=
  match c with
  | CallWriteDeploymentState _ _ => True
  | _ => False
  end.

End ConfigureCLI.

(** A world in which every call succeeds, and a context that leaves
    [outfile] empty, for examples. *)
Definition kind_world : @World unit unit nat nat unit :=
  {| Dial := fun _ => Ok tt;
     ReadDeploymentState := fun _ => Ok {| Intent := Some 7%nat; DeployConfig := 0%nat |};
     NewMnemonicKeyGenerator := fun _ => Ok tt;
     NewDeployConfig := fun _ _ intent => Ok (S intent);
     WriteDeploymentState := fun _ _ => None |}.

Definition in_place_ctx (flag : FlagName) : string :=
  match flag with
  | InfileFlagName => "state.json"
  | OutfileFlagName => ""
  | ConfigureMnemonicFlagName => "test test junk"
  | L1RPCURLFlagName => "http://localhost:8545"
  end.

End deployer.

(* ===================================================================== *)
(** * Properties *)
(* ===================================================================== *)

(** ** Keccak-256 known answers *)

(** Known answers: the empty string and the three bytes "abc". *)
Example keccak256_empty :
  vec_to_list (Keccak.keccak256 []) =
  [ xc5; xd2; x46; x01; x86; xf7; x23; x3c; x92; x7e; x7d; xb2; xdc; xc7; x03; xc0;
    xe5; x00; xb6; x53; xca; x82; x27; x3b; x7b; xfa; xd8; x04; x5d; x85; xa4; x70 ].
Proof. vm_compute. reflexivity. Qed.

Example keccak256_abc :
  vec_to_list (Keccak.keccak256 [x61; x62; x63]) =
  [ x4e; x03; x65; x7a; xea; x45; xa9; x4f; xc7; xd4; x7b; xa8; x26; xc8; xd6; x67;
    xc0; xd1; xe6; xe3; x3a; x64; xa0; x36; xec; x44; xf5; x8f; xa1; x2d; x6c; x45 ].
Proof. vm_compute. reflexivity. Qed.

(** The permutation and the sponge are only ever run on concrete input:
    the proofs below treat the hash as a black box that returns 32 bytes. *)
#[global] Opaque Keccak.keccak256.

(** ** Bytes, big-endian words and slices *)

Lemma byte_val_u8 (v : Z) : byte_val (u8 v) = v mod 256.
Proof.
  unfold byte_val, u8.
  assert (Hr : 0 <= v mod 256 < 256) by (apply Z.mod_pos_bound; lia).
  destruct (Byte.of_N (Z.to_N (v mod 256))) as [b|] eqn:E.
  - apply Byte.to_of_N in E. rewrite E. rewrite Z2N.id; lia.
  - apply Byte.of_N_None_iff in E. lia.
Qed.

Lemma byte_val_range (b : byte) : 0 <= byte_val b < 256.
Proof.
  unfold byte_val. pose proof (Byte.to_N_bounded b). lia.
Qed.

Lemma u8_byte_val (b : byte) : u8 (byte_val b) = b.
Proof.
  unfold u8. rewrite Z.mod_small by apply byte_val_range.
  unfold byte_val. rewrite N2Z.id, Byte.of_to_N. reflexivity.
Qed.

Lemma length_AppendUint64 (b : list byte) (v : Z) :
  length (AppendUint64 b v) = (length b + 8)%nat.
Proof. unfold AppendUint64. rewrite length_app. reflexivity. Qed.

Lemma AppendUint64_app (b : list byte) (v : Z) :
  AppendUint64 b v = b ++ AppendUint64 [] v.
Proof. reflexivity. Qed.

Lemma wrap64_small (v : Z) : 0 <= v < 2 ^ 64 -> wrap64 v = v.
Proof. intros Hv. unfold wrap64. apply Z.mod_small. exact Hv. Qed.

(** One more byte at the low end of a truncated quotient. *)
Lemma be_step (v : Z) (k k' M : Z) :
  0 <= k -> k' = k + 8 -> 0 < M ->
  ((v / 2 ^ k') mod M) * 256 + (v / 2 ^ k) mod 256 = (v / 2 ^ k) mod (256 * M).
Proof.
  intros Hk -> HM.
  rewrite Z.pow_add_r by lia.
  rewrite <- Z.div_div by lia.
  change (2 ^ 8) with 256.
  rewrite (Z.rem_mul_r (v / 2 ^ k) 256 M) by lia.
  lia.
Qed.

(** [AppendUint64] writes the value most significant byte first. *)
Lemma be_value_AppendUint64 (v : Z) : be_value (AppendUint64 [] v) = wrap64 v.
Proof.
  unfold be_value, AppendUint64, wrap64. cbn [app fold_left].
  rewrite !byte_val_u8, !Z.shiftr_div_pow2 by lia.
  rewrite Z.mul_0_l, Z.add_0_l.
  replace (v mod 256) with ((v / 2 ^ 0) mod 256) by (rewrite Z.div_1_r; reflexivity).
  rewrite (be_step v 48 56 256) by lia.
  rewrite (be_step v 40 48 (256 * 256)) by lia.
  rewrite (be_step v 32 40 (256 * (256 * 256))) by lia.
  rewrite (be_step v 24 32 (256 * (256 * (256 * 256)))) by lia.
  rewrite (be_step v 16 24 (256 * (256 * (256 * (256 * 256))))) by lia.
  rewrite (be_step v 8 16 (256 * (256 * (256 * (256 * (256 * 256)))))) by lia.
  rewrite (be_step v 0 8 (256 * (256 * (256 * (256 * (256 * (256 * 256))))))) by lia.
  rewrite Z.div_1_r. reflexivity.
Qed.

Lemma slice_app_l {A} (off n : nat) (l1 l2 : list A) :
  (off + n <= length l1)%nat -> slice off n (l1 ++ l2) = slice off n l1.
Proof.
  intros Hle. unfold slice.
  rewrite drop_app_le by lia.
  rewrite take_app_le; [reflexivity|]. rewrite length_drop. lia.
Qed.

Lemma slice_app_r {A} (off n : nat) (l1 l2 : list A) :
  length l1 = off -> length l2 = n -> slice off n (l1 ++ l2) = l2.
Proof.
  intros <- <-. unfold slice.
  rewrite drop_app_length. apply firstn_all.
Qed.

Lemma length_slice {A} (off n : nat) (l : list A) :
  (off + n <= length l)%nat -> length (slice off n l) = n.
Proof. intros Hle. unfold slice. rewrite length_take, length_drop. lia. Qed.

Lemma slice_1_lookup {A} (off : nat) (l : list A) (x : A) :
  slice off 1 l = [x] -> l !! off = Some x.
Proof.
  unfold slice. intros Hs.
  rewrite <- (Nat.add_0_r off), <- lookup_drop.
  destruct (drop off l) as [|y t]; [discriminate|]. cbn in *. congruence.
Qed.

Lemma slice_app_r_ge {A} (off n : nat) (l1 l2 : list A) :
  (length l1 <= off)%nat -> slice off n (l1 ++ l2) = slice (off - length l1) n l2.
Proof. intros Hle. unfold slice. rewrite drop_app_ge by lia. reflexivity. Qed.

Lemma slice_AppendUint64_l (off n : nat) (b : list byte) (v : Z) :
  (off + n <= length b)%nat -> slice off n (AppendUint64 b v) = slice off n b.
Proof. apply slice_app_l. Qed.

Lemma slice_AppendUint64_r (off : nat) (b : list byte) (v : Z) :
  length b = off -> slice off 8 (AppendUint64 b v) = AppendUint64 [] v.
Proof. intros Hlen. apply slice_app_r; [exact Hlen | reflexivity]. Qed.

Lemma length_AppendBoolToWitness (w : list byte) (b : bool) :
  length (run.AppendBoolToWitness w b) = (length w + 1)%nat.
Proof. unfold run.AppendBoolToWitness. destruct b; rewrite length_app; reflexivity. Qed.

Lemma AppendBoolToWitness_app (w : list byte) (b : bool) :
  run.AppendBoolToWitness w b = w ++ [if b then x01 else x00].
Proof. destruct b; reflexivity. Qed.

Lemma slice_AppendBool_l (off n : nat) (w : list byte) (b : bool) :
  (off + n <= length w)%nat -> slice off n (run.AppendBoolToWitness w b) = slice off n w.
Proof. rewrite AppendBoolToWitness_app. apply slice_app_l. Qed.

Lemma slice_AppendBool_r (off : nat) (w : list byte) (b : bool) :
  length w = off ->
  slice off 1 (run.AppendBoolToWitness w b) = [if b then x01 else x00].
Proof.
  intros Hlen. rewrite AppendBoolToWitness_app. apply slice_app_r; [exact Hlen | reflexivity].
Qed.

(** The register loop appends one word per register. *)
Lemma fold_AppendUint64 (vs : list Z) (out : list byte) :
  fold_left AppendUint64 vs out = out ++ fold_left AppendUint64 vs [].
Proof.
  revert out. induction vs as [|v vs IH]; intros out; cbn [fold_left].
  - rewrite app_nil_r. reflexivity.
  - rewrite IH. rewrite (IH (AppendUint64 [] v)).
    rewrite (AppendUint64_app out). rewrite app_assoc. reflexivity.
Qed.

Lemma length_fold_AppendUint64 (vs : list Z) (out : list byte) :
  length (fold_left AppendUint64 vs out) = (length out + 8 * length vs)%nat.
Proof.
  revert out. induction vs as [|v vs IH]; intros out; cbn [fold_left length].
  - lia.
  - rewrite IH, length_AppendUint64. lia.
Qed.

Lemma slice_fold_AppendUint64 (vs : list Z) (i : nat) (v : Z) :
  vs !! i = Some v ->
  slice (8 * i) 8 (fold_left AppendUint64 vs []) = AppendUint64 [] v.
Proof.
  revert i. induction vs as [|w vs IH]; intros i Hi; [discriminate|].
  cbn [fold_left]. rewrite fold_AppendUint64.
  destruct i as [|i].
  - cbn in Hi. injection Hi as ->.
    rewrite slice_app_l by (rewrite length_AppendUint64; cbn; lia).
    apply slice_AppendUint64_r. reflexivity.
  - cbn in Hi. rewrite slice_app_r_ge by (rewrite length_AppendUint64; cbn; lia).
    rewrite length_AppendUint64. cbn [length].
    replace (8 * S i - (0 + 8))%nat with (8 * i)%nat by lia.
    apply IH. exact Hi.
Qed.

Ltac len :=
  repeat first
    [ rewrite length_app | rewrite length_AppendUint64
    | rewrite length_AppendBoolToWitness | rewrite length_fold_AppendUint64
    | rewrite length_vec_to_list ];
  cbn [length]; lia.

Ltac slice_peel :=
  repeat first
    [ rewrite slice_app_l by len
    | rewrite slice_AppendUint64_l by len
    | rewrite slice_AppendBool_l by len ].

Ltac slice_field :=
  slice_peel;
  first [ apply slice_AppendUint64_r; len
        | apply slice_AppendBool_r; len
        | apply slice_app_r; len ].

Import multithreaded mipsevm64.

Lemma length_serializeThread (t : ThreadState) :
  length (serializeThread t) = SERIALIZED_THREAD_SIZE.
Proof.
  unfold serializeThread, SERIALIZED_THREAD_SIZE.
  rewrite length_fold_AppendUint64, length_vec_to_list.
  rewrite !length_AppendUint64, length_AppendBoolToWitness, length_app, length_AppendUint64.
  reflexivity.
Qed.

Lemma serializeThread_words (t : ThreadState) :
  let out := serializeThread t in
  slice 0 8 out = AppendUint64 [] (Thread.ThreadId t) /\
  slice 8 1 out = [Thread.ExitCode t] /\
  slice 9 1 out = [if Thread.Exited t then x01 else x00] /\
  slice 10 8 out = AppendUint64 [] (Thread.FutexAddr t) /\
  slice 18 8 out = AppendUint64 [] (Thread.FutexVal t) /\
  slice 26 8 out = AppendUint64 [] (Thread.FutexTimeoutStep t) /\
  slice 34 8 out = AppendUint64 [] (PC (Thread.Cpu t)) /\
  slice 42 8 out = AppendUint64 [] (NextPC (Thread.Cpu t)) /\
  slice 50 8 out = AppendUint64 [] (LO (Thread.Cpu t)) /\
  slice 58 8 out = AppendUint64 [] (HI (Thread.Cpu t)) /\
  forall i : fin 32,
    slice (66 + 8 * fin_to_nat i) 8 out = AppendUint64 [] (Thread.Registers t !!! i).
Proof.
  cbv zeta. unfold serializeThread. rewrite fold_AppendUint64.
  repeat apply conj; try (slice_field).
  intros i. rewrite slice_app_r_ge by len.
  replace (66 + 8 * fin_to_nat i - _)%nat with (8 * fin_to_nat i)%nat by len.
  apply slice_fold_AppendUint64. apply vlookup_lookup. reflexivity.
Qed.

Lemma index_lookup {A} (l : list A) (i : nat) (x : A) :
  l !! i = Some x -> index l i = Ret x.
Proof. intros Hl. unfold index. rewrite Hl. reflexivity. Qed.

Lemma bool_byte_decide (b : bool) : bool_decide ((if b then x01 else x00) = x01) = b.
Proof. destruct b; reflexivity. Qed.

Section StateProperties.

Context {memory_Memory : Type}.
Variable MerkleRoot : memory_Memory -> Hash.
Variable VmStatus : bool -> byte -> byte.

(** On a witness of the right size the hash is Keccak-256 with the
    status byte, read from bytes 80 and 81, written over byte 0. *)
Lemma stateHashFromWitness_sized (sw : list byte) (ec ex : byte) :
  length sw = STATE_WITNESS_SIZE ->
  sw !! 80%nat = Some ec -> sw !! 81%nat = Some ex ->
  stateHashFromWitness VmStatus sw =
    Ret (vinsert 0%fin (VmStatus (bool_decide (ex = x01)) ec) (crypto.Keccak256Hash sw)).
Proof.
  intros Hlen Hec Hex. unfold stateHashFromWitness.
  destruct (decide (length sw ≠ STATE_WITNESS_SIZE)) as [Hne|_]; [contradiction|].
  change EXITCODE_WITNESS_OFFSET with 80%nat.
  change EXITED_WITNESS_OFFSET with 81%nat.
  rewrite (index_lookup _ _ _ Hec), (index_lookup _ _ _ Hex). reflexivity.
Qed.

Lemma stateHashFromWitness_missized (sw : list byte) :
  length sw ≠ STATE_WITNESS_SIZE ->
  stateHashFromWitness VmStatus sw = Panic "Invalid witness length".
Proof.
  intros Hne. unfold stateHashFromWitness.
  destruct (decide (length sw ≠ STATE_WITNESS_SIZE)); [reflexivity|contradiction].
Qed.

(** [EncodeWitness] returns, and this is what it returns. *)
Lemma EncodeWitness_returns (s : @State memory_Memory) :
  exists w : list byte,
    EncodeWitness MerkleRoot VmStatus s =
      Ret (w, vinsert 0%fin (VmStatus (Exited s) (ExitCode s)) (crypto.Keccak256Hash w)) /\
    length w = STATE_WITNESS_SIZE /\
    slice 0 32 w = vec_to_list (MerkleRoot (Memory s)) /\
    slice 32 32 w = vec_to_list (PreimageKey s) /\
    slice 64 8 w = AppendUint64 [] (PreimageOffset s) /\
    slice 72 8 w = AppendUint64 [] (Heap s) /\
    slice 80 1 w = [ExitCode s] /\
    slice 81 1 w = [if Exited s then x01 else x00] /\
    slice 82 8 w = AppendUint64 [] (Step s) /\
    slice 90 8 w = AppendUint64 [] (StepsSinceLastContextSwitch s) /\
    slice 98 8 w = AppendUint64 [] (Wakeup s) /\
    slice 106 1 w = [if TraverseRight s then x01 else x00] /\
    slice 107 32 w = vec_to_list (calculateThreadStackRoot (LeftThreadStack s)) /\
    slice 139 32 w = vec_to_list (calculateThreadStackRoot (RightThreadStack s)) /\
    slice 171 8 w = AppendUint64 [] (NextThreadId s).
Proof.
  unfold EncodeWitness, getLeftThreadStackRoot, getRightThreadStackRoot.
  cbv zeta.
  match goal with
  | |- context [stateHashFromWitness _ ?o] => set (out := o)
  end.
  assert (Hlen : length out = STATE_WITNESS_SIZE)
    by (subst out; change STATE_WITNESS_SIZE with 179%nat; len).
  assert (Hec : slice 80 1 out = [ExitCode s]) by (subst out; slice_field).
  assert (Hex : slice 81 1 out = [if Exited s then x01 else x00]) by (subst out; slice_field).
  exists out. split.
  - rewrite (stateHashFromWitness_sized out _ _ Hlen (slice_1_lookup _ _ _ Hec)
               (slice_1_lookup _ _ _ Hex)).
    rewrite bool_byte_decide. reflexivity.
  - split; [exact Hlen|]. subst out.
    repeat apply conj; slice_field.
Qed.

(** C1.  [EncodeWitness] returns the witness together with its state
    hash: Keccak-256 of the witness with byte 0 overwritten by the VM
    status of [(Exited, ExitCode)].  Hence byte 0 of the hash is
    [VMStatus], and [stateHashFromWitness] on the returned bytes gives the
    returned hash. *)
Theorem EncodeWitness_state_hash (s : @State memory_Memory) :
  exists (w : list byte) (h : Hash),
    EncodeWitness MerkleRoot VmStatus s = Ret (w, h) /\
    h = vinsert 0%fin (VmStatus (Exited s) (ExitCode s)) (crypto.Keccak256Hash w) /\
    h !!! 0%fin = VMStatus VmStatus s /\
    (forall i : fin 32, i ≠ 0%fin -> h !!! i = crypto.Keccak256Hash w !!! i) /\
    stateHashFromWitness VmStatus w = Ret h.
Proof.
  destruct (EncodeWitness_returns s)
    as (w & Henc & Hlen & _ & _ & _ & _ & Hec & Hex & _).
  exists w, (vinsert 0%fin (VmStatus (Exited s) (ExitCode s)) (crypto.Keccak256Hash w)).
  split; [exact Henc|]. split; [reflexivity|]. split; [|split].
  - rewrite vlookup_insert. reflexivity.
  - intros i Hi. rewrite vlookup_insert_ne by congruence. reflexivity.
  - rewrite (stateHashFromWitness_sized w _ _ Hlen (slice_1_lookup _ _ _ Hec)
               (slice_1_lookup _ _ _ Hex)).
    rewrite bool_byte_decide. reflexivity.
Qed.

(** C2.  The witness of [EncodeWitness] is 179 bytes long and holds, most
    significant byte first: the memory root at 0, the preimage key at 32,
    the preimage offset at 64, the heap at 72, the exit code at 80, exited
    as 0/1 at 81, step at 82, the steps since the last context switch at
    90, wakeup at 98, traverse-right as 0/1 at 106, the left and right
    stack roots at 107 and 139 and the next thread id at 171. *)
Theorem EncodeWitness_layout (s : @State memory_Memory) :
  exists (w : list byte) (h : Hash),
    EncodeWitness MerkleRoot VmStatus s = Ret (w, h) /\
    length w = 179%nat /\
    witness_offsets = [0; 32; 64; 72; 80; 81; 82; 90; 98; 106; 107; 139; 171; 179]%nat /\
    slice 0 32 w = vec_to_list (MerkleRoot (Memory s)) /\
    slice 32 32 w = vec_to_list (PreimageKey s) /\
    be_value (slice 64 8 w) = wrap64 (PreimageOffset s) /\
    be_value (slice 72 8 w) = wrap64 (Heap s) /\
    slice 80 1 w = [ExitCode s] /\
    slice 81 1 w = [if Exited s then x01 else x00] /\
    be_value (slice 82 8 w) = wrap64 (Step s) /\
    be_value (slice 90 8 w) = wrap64 (StepsSinceLastContextSwitch s) /\
    be_value (slice 98 8 w) = wrap64 (Wakeup s) /\
    slice 106 1 w = [if TraverseRight s then x01 else x00] /\
    slice 107 32 w = vec_to_list (calculateThreadStackRoot (LeftThreadStack s)) /\
    slice 139 32 w = vec_to_list (calculateThreadStackRoot (RightThreadStack s)) /\
    be_value (slice 171 8 w) = wrap64 (NextThreadId s).
Proof.
  destruct (EncodeWitness_returns s)
    as (w & Henc & Hlen & H0 & H32 & H64 & H72 & H80 & H81 & H82 & H90 & H98
        & H106 & H107 & H139 & H171).
  eexists w, _. split; [exact Henc|].
  rewrite H64, H72, H82, H90, H98, H171, !be_value_AppendUint64.
  change STATE_WITNESS_SIZE with 179%nat in Hlen.
  repeat apply conj; solve [reflexivity | assumption].
Qed.

End StateProperties.

(** C3.  A serialised thread is 322 bytes, most significant byte first:
    thread id, exit code, exited as 0/1, futex address, futex value, futex
    timeout step, PC, NextPC, LO, HI, then the 32 registers. *)
Theorem serializeThread_layout (t : ThreadState) :
  let out := serializeThread t in
  length out = 322%nat /\
  SERIALIZED_THREAD_SIZE = 322%nat /\
  be_value (slice 0 8 out) = wrap64 (Thread.ThreadId t) /\
  slice 8 1 out = [Thread.ExitCode t] /\
  slice 9 1 out = [if Thread.Exited t then x01 else x00] /\
  be_value (slice 10 8 out) = wrap64 (Thread.FutexAddr t) /\
  be_value (slice 18 8 out) = wrap64 (Thread.FutexVal t) /\
  be_value (slice 26 8 out) = wrap64 (Thread.FutexTimeoutStep t) /\
  be_value (slice 34 8 out) = wrap64 (PC (Thread.Cpu t)) /\
  be_value (slice 42 8 out) = wrap64 (NextPC (Thread.Cpu t)) /\
  be_value (slice 50 8 out) = wrap64 (LO (Thread.Cpu t)) /\
  be_value (slice 58 8 out) = wrap64 (HI (Thread.Cpu t)) /\
  forall i : fin 32,
    be_value (slice (66 + 8 * fin_to_nat i) 8 out) =
      wrap64 (Thread.Registers t !!! i).
Proof.
  pose proof (serializeThread_words t) as Hw. cbv zeta in *.
  destruct Hw as (H0 & H8 & H9 & H10 & H18 & H26 & H34 & H42 & H50 & H58 & Hr).
  split; [apply length_serializeThread|]. split; [reflexivity|].
  rewrite H0, H10, H18, H26, H34, H42, H50, H58, !be_value_AppendUint64.
  repeat apply conj; try solve [reflexivity | assumption].
  intros i. rewrite Hr. apply be_value_AppendUint64.
Qed.

(** ** The thread hash-onion *)

(** The constant in the source is what its comment says it is. *)
Lemma EmptyThreadsRoot_keccak :
  EmptyThreadsRoot = crypto.Keccak256Hash (repeat x00 64).
Proof. vm_compute. reflexivity. Qed.

(** Pushing a thread wraps one more layer around the root. *)
Lemma calculateThreadStackRoot_push (stack : list ThreadState) (t : ThreadState) :
  calculateThreadStackRoot (stack ++ [t]) =
    crypto.Keccak256Hash
      (vec_to_list (calculateThreadStackRoot stack) ++
       vec_to_list (crypto.Keccak256Hash (serializeThread t))).
Proof.
  unfold calculateThreadStackRoot. rewrite fold_left_app. reflexivity.
Qed.

(** C4.  The root of a thread stack is the left fold, from the bottom of
    the stack to its top, of [root <- keccak256(root ++ keccak256(serialize
    thread))], started at [EmptyThreadsRoot], which is Keccak-256 of 64 zero
    bytes, the constant [0xad32...5fb5]; the empty stack has that root, and
    a thread pushed on top adds the outermost layer. *)
Theorem calculateThreadStackRoot_onion (stack : list ThreadState) :
  calculateThreadStackRoot stack =
    fold_left
      (fun root thread =>
         crypto.Keccak256Hash
           (vec_to_list root ++ vec_to_list (crypto.Keccak256Hash (serializeThread thread))))
      stack (crypto.Keccak256Hash (repeat x00 64)) /\
  vec_to_list (crypto.Keccak256Hash (repeat x00 64)) =
    [ xad; x32; x28; xb6; x76; xf7; xd3; xcd; x42; x84; xa5; x44; x3f; x17; xf1; x96;
      x2b; x36; xe4; x91; xb3; x0a; x40; xb2; x40; x58; x49; xe5; x97; xba; x5f; xb5 ] /\
  calculateThreadStackRoot [] = EmptyThreadsRoot /\
  EmptyThreadsRoot = crypto.Keccak256Hash (repeat x00 64) /\
  (forall top : ThreadState,
     calculateThreadStackRoot (stack ++ [top]) =
       crypto.Keccak256Hash
         (vec_to_list (calculateThreadStackRoot stack) ++
          vec_to_list (crypto.Keccak256Hash (serializeThread top)))).
Proof.
  split; [|split; [|split; [|split]]].
  - unfold calculateThreadStackRoot. rewrite EmptyThreadsRoot_keccak. reflexivity.
  - rewrite <- EmptyThreadsRoot_keccak. reflexivity.
  - reflexivity.
  - apply EmptyThreadsRoot_keccak.
  - intros top. apply calculateThreadStackRoot_push.
Qed.

Section ThreadAccess.

Context {memory_Memory : Type}.
Lemma active_stack_top (s : @State memory_Memory) :
  getActiveThreadStack s ≠ [] ->
  exists others t,
    getActiveThreadStack s = others ++ [t] /\
    take (length (getActiveThreadStack s) - 1) (getActiveThreadStack s) = others /\
    index (getActiveThreadStack s) (length (getActiveThreadStack s) - 1) = Ret t.
Proof.
  intros Hne.
  destruct (getActiveThreadStack s) as [|t0 l] using rev_ind; [contradiction|].
  exists l, t0. split; [reflexivity|].
  rewrite length_app. cbn [length].
  replace (length l + 1 - 1)%nat with (length l) by lia.
  split.
  - rewrite take_app_length. reflexivity.
  - apply index_lookup. rewrite lookup_app_r by lia.
    replace (length l - length l)%nat with 0%nat by lia. reflexivity.
Qed.

Lemma getCurrentThread_top (s : @State memory_Memory) (others : list ThreadState) (t : ThreadState) :
  getActiveThreadStack s = others ++ [t] -> getCurrentThread s = Ret t.
Proof.
  intros Hs. unfold getCurrentThread.
  assert (Hne : getActiveThreadStack s ≠ []) by (rewrite Hs; destruct others; discriminate).
  destruct (active_stack_top s Hne) as (o & t' & Heq & _ & Hidx).
  rewrite Hs in Heq. apply app_inj_tail in Heq as [_ <-].
  destruct (decide (length (getActiveThreadStack s) = 0%nat)) as [Hz|_].
  - apply length_zero_iff_nil in Hz. contradiction.
  - exact Hidx.
Qed.

Lemma getCurrentThread_empty (s : @State memory_Memory) :
  getActiveThreadStack s = [] ->
  getCurrentThread s = Panic "Active thread stack is empty".
Proof. intros Hs. unfold getCurrentThread. rewrite Hs. reflexivity. Qed.

Lemma EncodeThreadProof_top (s : @State memory_Memory) (others : list ThreadState) (t : ThreadState) :
  getActiveThreadStack s = others ++ [t] ->
  EncodeThreadProof s =
    Ret (serializeThread t ++ vec_to_list (calculateThreadStackRoot others)).
Proof.
  intros Hs. unfold EncodeThreadProof.
  assert (Hne : getActiveThreadStack s ≠ []) by (rewrite Hs; destruct others; discriminate).
  destruct (active_stack_top s Hne) as (o & t' & Heq & Htake & Hidx).
  rewrite Hs in Heq. apply app_inj_tail in Heq as [<- <-].
  destruct (decide (length (getActiveThreadStack s) = 0%nat)) as [Hz|_].
  - apply length_zero_iff_nil in Hz. contradiction.
  - rewrite Hidx, Htake. reflexivity.
Qed.

Lemma EncodeThreadProof_empty (s : @State memory_Memory) :
  getActiveThreadStack s = [] ->
  EncodeThreadProof s = Panic "Invalid empty thread stack".
Proof. intros Hs. unfold EncodeThreadProof. rewrite Hs. reflexivity. Qed.

(** C5.  When the active stack, the right stack when [TraverseRight] is
    set and the left stack otherwise, is not empty, the thread proof is 354
    bytes: the 322 bytes of the current thread, the top of that stack, then
    the 32 bytes of the root of that stack without its top. *)
Theorem EncodeThreadProof_layout (s : @State memory_Memory) :
  (if TraverseRight s then RightThreadStack s else LeftThreadStack s) ≠ [] ->
  exists (others : list ThreadState) (current : ThreadState) (out : list byte),
    (if TraverseRight s then RightThreadStack s else LeftThreadStack s) = others ++ [current] /\
    getCurrentThread s = Ret current /\
    EncodeThreadProof s = Ret out /\
    length out = 354%nat /\
    THREAD_WITNESS_SIZE = 354%nat /\
    slice 0 322 out = serializeThread current /\
    slice 322 32 out = vec_to_list (calculateThreadStackRoot others) /\
    out = serializeThread current ++ vec_to_list (calculateThreadStackRoot others).
Proof.
  intros Hne. change (getActiveThreadStack s ≠ []) in Hne.
  destruct (active_stack_top s Hne) as (others & t & Hs & _ & _).
  exists others, t, (serializeThread t ++ vec_to_list (calculateThreadStackRoot others)).
  pose proof (length_serializeThread t) as Hlen.
  change SERIALIZED_THREAD_SIZE with 322%nat in Hlen.
  split; [exact Hs|]. split; [exact (getCurrentThread_top s others t Hs)|].
  split; [exact (EncodeThreadProof_top s others t Hs)|].
  split; [rewrite length_app, length_vec_to_list; lia|].
  split; [reflexivity|].
  split; [|split; [|reflexivity]].
  - rewrite slice_app_l by lia. unfold slice. rewrite drop_0. rewrite <- Hlen. apply firstn_all.
  - apply slice_app_r; [exact Hlen | apply length_vec_to_list].
Qed.

(** C10.  [GetPC], [GetRegisters] and [EncodeThreadProof] return a value
    exactly when the active thread stack, the right one when
    [TraverseRight] is set and the left one otherwise, is not empty; on
    an empty active stack each of them panics. *)
Theorem current_thread_readers_partial (s : @State memory_Memory) :
  getActiveThreadStack s = (if TraverseRight s then RightThreadStack s else LeftThreadStack s) /\
  (returns (GetPC s) <-> getActiveThreadStack s ≠ []) /\
  (returns (GetRegisters s) <-> getActiveThreadStack s ≠ []) /\
  (returns (EncodeThreadProof s) <-> getActiveThreadStack s ≠ []) /\
  (getActiveThreadStack s = [] <-> GetPC s = Panic "Active thread stack is empty") /\
  (getActiveThreadStack s = [] <-> GetRegisters s = Panic "Active thread stack is empty") /\
  (getActiveThreadStack s = [] <-> EncodeThreadProof s = Panic "Invalid empty thread stack").
Proof.
  split; [reflexivity|].
  destruct (decide (getActiveThreadStack s = [])) as [He|Hne].
  - pose proof (getCurrentThread_empty s He) as Hc.
    pose proof (EncodeThreadProof_empty s He) as Hp.
    unfold GetPC, GetRegisters, returns. rewrite Hc, Hp. cbn.
    repeat apply conj;
      solve [intros [? ?]; discriminate | intros; contradiction
            | reflexivity | intros; assumption ].
  - destruct (active_stack_top s Hne) as (others & t & Hs & _ & _).
    pose proof (getCurrentThread_top s others t Hs) as Hc.
    pose proof (EncodeThreadProof_top s others t Hs) as Hp.
    unfold GetPC, GetRegisters, returns. rewrite Hc, Hp. cbn.
    repeat apply conj;
      solve [intros; eexists; reflexivity | intros; assumption
            | intros; contradiction | intros; discriminate ].
Qed.

End ThreadAccess.

(** A state in right traversal with an empty left stack and two threads
    on the right stack: the proof is the serialised second thread, the top
    of the right stack, and the root of the stack of the first thread
    alone. *)
Lemma EncodeThreadProof_layout_witness :
  TraverseRight right_traversal_state = true /\
  LeftThreadStack right_traversal_state = [] /\
  exists out : list byte,
    EncodeThreadProof right_traversal_state = Ret out /\
    length out = 354%nat /\
    slice 0 322 out = serializeThread second_thread /\
    slice 322 32 out = vec_to_list (calculateThreadStackRoot [CreateEmptyThread]).
Proof.
  split; [reflexivity|]. split; [reflexivity|].
  assert (Hne : (if TraverseRight right_traversal_state
                 then RightThreadStack right_traversal_state
                 else LeftThreadStack right_traversal_state) ≠ []) by discriminate.
  destruct (EncodeThreadProof_layout right_traversal_state Hne)
    as (others & current & out & Hs & Hc & Hout & Hlen & _ & H0 & H322 & _).
  change (if TraverseRight right_traversal_state
          then RightThreadStack right_traversal_state
          else LeftThreadStack right_traversal_state)
    with ([CreateEmptyThread] ++ [second_thread]) in Hs.
  apply app_inj_tail in Hs as [<- <-].
  exists out. repeat split; assumption.
Defined.

Section StateHashProperties.

Variable VmStatus : bool -> byte -> byte.

(** C8.  [StateHash] returns an error exactly when the witness is not
    179 bytes long; on 179 bytes it returns, with a nil error, Keccak-256
    of the witness with byte 0 replaced by the VM status of byte 80, the
    exit code, and byte 81, exited. *)
Theorem StateHash_spec (sw : list byte) :
  (failed (StateHash VmStatus sw) <-> length sw ≠ 179%nat) /\
  ((length sw ≠ 179%nat /\
    StateHash VmStatus sw =
      Ret (zero_hash, Some (InvalidWitnessLength (length sw) 179))) \/
   (length sw = 179%nat /\
    exists exitCode exited : byte,
      sw !! 80%nat = Some exitCode /\ sw !! 81%nat = Some exited /\
      StateHash VmStatus sw =
        Ret (vinsert 0%fin (VmStatus (bool_decide (exited = x01)) exitCode)
               (crypto.Keccak256Hash sw), None))).
Proof.
  unfold StateHash, failed. change STATE_WITNESS_SIZE with 179%nat.
  destruct (decide (length sw ≠ 179%nat)) as [Hne|Heq].
  - split.
    + split; [intros _; exact Hne | intros _; eexists _, _; reflexivity].
    + left. split; [exact Hne | reflexivity].
  - assert (Hlen : length sw = 179%nat) by lia.
    destruct (lookup_lt_is_Some_2 sw 80) as [ec Hec]; [lia|].
    destruct (lookup_lt_is_Some_2 sw 81) as [ex Hex]; [lia|].
    rewrite (stateHashFromWitness_sized VmStatus sw ec ex Hlen Hec Hex).
    split.
    + split; [intros (h & e & Hr); discriminate | intros Hn; contradiction].
    + right. split; [exact Hlen|]. exists ec, ex. repeat split; assumption.
Qed.

End StateHashProperties.

(** ** The tracking preimage reader *)

Section PreimageReader.

Import exec.

Lemma length_prefixed (data : list byte) :
  length (prefixed data) = (8 + length data)%nat.
Proof. unfold prefixed. rewrite length_app, length_AppendUint64. reflexivity. Qed.

(** The stream starts with the length of the data, most significant byte
    first. *)
Lemma prefixed_length_prefix (data : list byte) :
  be_value (slice 0 8 (prefixed data)) = wrap64 (Z.of_nat (length data)).
Proof.
  unfold prefixed. rewrite slice_app_l by (rewrite length_AppendUint64; cbn; lia).
  rewrite slice_AppendUint64_r by reflexivity. apply be_value_AppendUint64.
Qed.

Lemma prefixed_payload (data : list byte) : drop 8 (prefixed data) = data.
Proof.
  unfold prefixed. apply drop_app_length'. rewrite length_AppendUint64. reflexivity.
Qed.

(** [copy] into a zeroed array: the bytes of the source, then zeros. *)
Lemma copy_zero_hash (src : list byte) :
  vec_to_list (fst (copy zero_hash src)) =
    take 32 src ++ replicate (32 - Nat.min 32 (length src)) x00 /\
  snd (copy zero_hash src) = Nat.min 32 (length src).
Proof.
  split; [|reflexivity]. unfold copy. cbn [fst].
  apply (list_eq_same_length _ _ 32).
  - rewrite length_app, length_take, length_replicate. lia.
  - apply length_vec_to_list.
  - intros i x y Hi Hx Hy.
    apply vlookup_lookup' in Hx as [Hlt Hx].
    rewrite lookup_fun_to_vec, fin_to_nat_to_fin in Hx.
    destruct (src !! i) as [b|] eqn:Hsrc.
    + subst x. apply lookup_lt_Some in Hsrc as Hlen.
      rewrite lookup_app_l in Hy by (rewrite length_take; lia).
      rewrite lookup_take_lt in Hy by lia. congruence.
    + apply lookup_ge_None in Hsrc.
      rewrite lookup_app_r in Hy by (rewrite length_take; lia).
      apply lookup_replicate in Hy as [-> _].
      rewrite <- Hx. unfold zero_hash. apply vlookup_replicate.
Qed.

(** The stream [ReadPreimage] reads from: fetched when the key is not
    the cached key, the cached bytes otherwise. *)
Lemma ReadPreimage_returns (p : TrackingPreimageOracleReader) (key : Hash) (offset : Z) :
  let stream :=
    if decide (key ≠ lastPreimageKey p) then prefixed (preimages (po p) key)
    else lastPreimage p in
  0 <= offset <= Z.of_nat (length stream) ->
  exists (p' : TrackingPreimageOracleReader) (dat : Hash),
    ReadPreimage p key offset =
      Ret (p', dat, Z.of_nat (Nat.min 32 (length stream - Z.to_nat offset))) /\
    vec_to_list dat =
      take 32 (drop (Z.to_nat offset) stream) ++
      replicate (32 - Nat.min 32 (length stream - Z.to_nat offset)) x00 /\
    lastPreimageKey p' = key /\
    lastPreimage p' = stream /\
    lastPreimageOffset p' = offset /\
    preimages (po p') = preimages (po p) /\
    queried (po p') =
      queried (po p) ++ (if decide (key ≠ lastPreimageKey p) then [key] else []).
Proof.
  cbv zeta. unfold ReadPreimage, po_GetPreimage.
  destruct (decide (key ≠ lastPreimageKey p)) as [Hne|Heq]; cbn [lastPreimage po];
    intros Hoff.
  - destruct (decide (0 <= offset <= Z.of_nat (length (prefixed (preimages (po p) key)))))
      as [_|Hn]; [|contradiction].
    pose proof (copy_zero_hash (drop (Z.to_nat offset) (prefixed (preimages (po p) key))))
      as [Hdat Hn].
    destruct (copy zero_hash _) as [dat n]. cbn [fst snd] in Hdat, Hn. subst n.
    rewrite length_drop in *.
    eexists _, dat. split; [reflexivity|]. cbn. repeat apply conj; try reflexivity.
    exact Hdat.
  - destruct (decide (0 <= offset <= Z.of_nat (length (lastPreimage p))))
      as [_|Hn]; [|contradiction].
    pose proof (copy_zero_hash (drop (Z.to_nat offset) (lastPreimage p))) as [Hdat Hn].
    destruct (copy zero_hash _) as [dat n]. cbn [fst snd] in Hdat, Hn. subst n.
    rewrite length_drop in *.
    eexists _, dat. split; [reflexivity|]. cbn. repeat apply conj; try reflexivity.
    + exact Hdat.
    + apply dec_stable in Heq. congruence.
    + rewrite app_nil_r. reflexivity.
Qed.

Lemma ReadPreimage_panics (p : TrackingPreimageOracleReader) (key : Hash) (offset : Z) :
  let stream :=
    if decide (key ≠ lastPreimageKey p) then prefixed (preimages (po p) key)
    else lastPreimage p in
  Z.of_nat (length stream) < offset ->
  ReadPreimage p key offset = Panic "slice bounds out of range".
Proof.
  cbv zeta. unfold ReadPreimage, po_GetPreimage.
  destruct (decide (key ≠ lastPreimageKey p)) as [Hne|Heq]; cbn [lastPreimage po];
    intros Hoff.
  - destruct (decide (0 <= offset <= Z.of_nat (length (prefixed (preimages (po p) key)))))
      as [Hin|_]; [lia|reflexivity].
  - destruct (decide (0 <= offset <= Z.of_nat (length (lastPreimage p))))
      as [Hin|_]; [lia|reflexivity].
Qed.

(** With a cache that holds what its comments say, or a key that is not
    the cached one, the read is served from the prefixed stream of the
    key, the oracle being asked only for a key that is not cached; the
    cache holds that stream afterwards. *)
Lemma ReadPreimage_coherent (p : TrackingPreimageOracleReader) (key : Hash) (offset : Z) :
  key ≠ lastPreimageKey p \/ cache_coherent p ->
  let stream := prefixed (preimages (po p) key) in
  0 <= offset <= 8 + Z.of_nat (length (preimages (po p) key)) ->
  exists (p' : TrackingPreimageOracleReader) (dat : Hash) (n : nat),
    ReadPreimage p key offset = Ret (p', dat, Z.of_nat n) /\
    Z.of_nat n = Z.min 32 (8 + Z.of_nat (length (preimages (po p) key)) - offset) /\
    take n (vec_to_list dat) = slice (Z.to_nat offset) n stream /\
    drop n (vec_to_list dat) = replicate (32 - n) x00 /\
    cache_coherent p' /\
    lastPreimageKey p' = key /\
    queried (po p') =
      queried (po p) ++ (if decide (key ≠ lastPreimageKey p) then [key] else []).
Proof.
  intros Hc. cbv zeta. intros Hoff.
  pose proof (ReadPreimage_returns p key offset) as Hr. cbv zeta in Hr.
  assert (Hstream :
    (if decide (key ≠ lastPreimageKey p) then prefixed (preimages (po p) key)
     else lastPreimage p) = prefixed (preimages (po p) key)).
  { destruct (decide (key ≠ lastPreimageKey p)) as [_|Heq]; [reflexivity|].
    apply dec_stable in Heq. destruct Hc as [Hne|Hc]; [contradiction|].
    unfold cache_coherent in Hc. rewrite Hc, Heq. reflexivity. }
  rewrite Hstream in Hr. rewrite length_prefixed in Hr.
  destruct Hr as (p' & dat & Hread & Hdat & Hkey & Hlast & _ & Hpre & Hq); [lia|].
  set (n := Nat.min 32 (8 + length (preimages (po p) key) - Z.to_nat offset)) in *.
  assert (Htake : n = length (take 32 (drop (Z.to_nat offset) (prefixed (preimages (po p) key))))).
  { rewrite length_take, length_drop, length_prefixed. reflexivity. }
  exists p', dat, n. split; [exact Hread|].
  split; [subst n; lia|]. rewrite Hdat.
  split; [|split; [|split; [|split]]].
  - rewrite take_app_length' by exact Htake. unfold slice.
    subst n. rewrite <- take_take.
    replace (8 + length (preimages (po p) key) - Z.to_nat offset)%nat
      with (length (drop (Z.to_nat offset) (prefixed (preimages (po p) key))))
      by (rewrite length_drop, length_prefixed; reflexivity).
    rewrite firstn_all. reflexivity.
  - rewrite drop_app_length' by exact Htake. reflexivity.
  - unfold cache_coherent. rewrite Hlast, Hpre, Hkey. reflexivity.
  - exact Hkey.
  - exact Hq.
Qed.

(** Beyond the end of the prefixed stream the slice expression panics. *)
Lemma ReadPreimage_coherent_panics
    (p : TrackingPreimageOracleReader) (key : Hash) (offset : Z) :
  key ≠ lastPreimageKey p \/ cache_coherent p ->
  8 + Z.of_nat (length (preimages (po p) key)) < offset ->
  ReadPreimage p key offset = Panic "slice bounds out of range".
Proof.
  intros Hc Hoff. apply ReadPreimage_panics. cbv zeta.
  destruct (decide (key ≠ lastPreimageKey p)) as [_|Heq].
  - rewrite length_prefixed. lia.
  - apply dec_stable in Heq. destruct Hc as [Hne|Hc]; [contradiction|].
    unfold cache_coherent in Hc. rewrite Hc, length_prefixed, <- Heq. lia.
Qed.

(** A new reader caches nothing, under the all-zero key. *)
Lemma new_reader_not_coherent (o : PreimageOracle) :
  ~ cache_coherent (NewTrackingPreimageOracleReader o).
Proof.
  unfold cache_coherent. intros Heq.
  apply (f_equal length) in Heq. rewrite length_prefixed in Heq. cbn in Heq. lia.
Qed.

(** C6, at the input where the code departs from it.  A new reader asked
    for the all-zero key at offset 0 does not ask the oracle and returns
    no byte, whereas the prefixed stream of the oracle's data for that key
    has at least its 8 bytes of length. *)
Theorem ReadPreimage_new_reader_zero_key (o : PreimageOracle) :
  exists p' : TrackingPreimageOracleReader,
    ReadPreimage (NewTrackingPreimageOracleReader o) zero_hash 0 =
      Ret (p', zero_hash, 0) /\
    queried (po p') = queried o /\
    lastPreimage p' = [] /\
    0 < Z.min 32 (8 + Z.of_nat (length (preimages o zero_hash)) - 0).
Proof.
  eexists. split; [|split; [|split]].
  - vm_compute. reflexivity.
  - reflexivity.
  - reflexivity.
  - lia.
Qed.

(** C9, at the input where the code departs from it.  A new reader
    asked for the all-zero key at offset 1, which is within the prefixed
    stream of any data, panics. *)
Theorem ReadPreimage_new_reader_zero_key_panics (o : PreimageOracle) :
  ReadPreimage (NewTrackingPreimageOracleReader o) zero_hash 1 =
    Panic "slice bounds out of range" /\
  1 <= 8 + Z.of_nat (length (preimages o zero_hash)).
Proof.
  split; [vm_compute; reflexivity | lia].
Qed.

End PreimageReader.

(** *** The readers of a run *)

Section ReachableReaders.

Import exec.

Lemma ReadPreimage_inv (p p' : TrackingPreimageOracleReader) key offset dat n :
  ReadPreimage p key offset = Ret (p', dat, n) ->
  preimages (po p') = preimages (po p) /\
  lastPreimageKey p' = key /\
  lastPreimage p' =
    (if decide (key ≠ lastPreimageKey p) then prefixed (preimages (po p) key)
     else lastPreimage p).
Proof.
  intros Hread.
  destruct (decide (0 <= offset <=
    Z.of_nat (length (if decide (key ≠ lastPreimageKey p)
                      then prefixed (preimages (po p) key) else lastPreimage p))))
    as [Hin|Hout].
  - destruct (ReadPreimage_returns p key offset Hin)
      as (q & d & Hq & _ & Hkey & Hlast & _ & Hpre & _).
    rewrite Hread in Hq. injection Hq as -> -> _. auto.
  - rewrite ReadPreimage_panics in Hread; [discriminate|].
    cbv zeta.
    assert (Hnn : 0 <= offset \/ offset < 0) by lia.
    destruct Hnn as [Hnn|Hneg]; [lia|].
    exfalso. unfold ReadPreimage, po_GetPreimage in Hread.
    destruct (decide (key ≠ lastPreimageKey p)); cbn [lastPreimage po] in Hread;
      match type of Hread with
      | context [decide (0 <= offset <= ?b)] =>
          destruct (decide (0 <= offset <= b)); [lia | discriminate]
      end.
Qed.

(** The cache of a reader of a run is either what the field comments
    say or still empty under the all-zero key. *)
Lemma reachable_cache (o : PreimageOracle) (p : TrackingPreimageOracleReader) :
  reachable o p ->
  preimages (po p) = preimages o /\ (cache_coherent p \/ never_fetched p).
Proof.
  induction 1 as [|p p' Hreach [Hpre IH] Hstep].
  - split; [reflexivity|]. right. split; reflexivity.
  - destruct Hstep as [p|p v|p k|p key offset p' dat n Hread].
    + split; [exact Hpre|]. exact IH.
    + split; [exact Hpre|]. exact IH.
    + split; [exact Hpre|]. exact IH.
    + apply ReadPreimage_inv in Hread as (Hp & Hkey & Hlast).
      split; [congruence|].
      destruct (decide (key ≠ lastPreimageKey p)) as [Hne|Heq].
      * left. unfold cache_coherent. rewrite Hlast, Hp, Hkey. reflexivity.
      * apply dec_stable in Heq.
        destruct IH as [Hc|[Hnil Hzero]].
        -- left. unfold cache_coherent in *. rewrite Hlast, Hp, Hkey, Heq. exact Hc.
        -- right. split; congruence.
Qed.

(** In a run every read of a key other than the all-zero key is served
    from the prefixed stream of that key. *)
Lemma ReadPreimage_reachable
    (o : PreimageOracle) (p : TrackingPreimageOracleReader) (key : Hash) (offset : Z) :
  reachable o p ->
  key ≠ zero_hash \/ cache_coherent p ->
  0 <= offset <= 8 + Z.of_nat (length (preimages o key)) ->
  exists (p' : TrackingPreimageOracleReader) (dat : Hash) (n : nat),
    ReadPreimage p key offset = Ret (p', dat, Z.of_nat n) /\
    Z.of_nat n = Z.min 32 (8 + Z.of_nat (length (preimages o key)) - offset) /\
    take n (vec_to_list dat) = slice (Z.to_nat offset) n (prefixed (preimages o key)) /\
    drop n (vec_to_list dat) = replicate (32 - n) x00 /\
    queried (po p') =
      queried (po p) ++ (if decide (key ≠ lastPreimageKey p) then [key] else []).
Proof.
  intros Hreach Hkey Hoff.
  destruct (reachable_cache o p Hreach) as [Hpre Hinv].
  assert (Hc : key ≠ lastPreimageKey p \/ cache_coherent p).
  { destruct Hkey as [Hnz|Hc]; [|right; exact Hc].
    destruct Hinv as [Hc|[_ Hzero]]; [right; exact Hc|left; congruence]. }
  rewrite <- Hpre in *.
  destruct (ReadPreimage_coherent p key offset Hc Hoff)
    as (p' & dat & n & Hread & Hn & Htake & Hdrop & _ & _ & Hq).
  exists p', dat, n. auto.
Qed.

(** In a run a read beyond the end of the prefixed stream of the key
    panics, whatever the cache holds. *)
Lemma ReadPreimage_reachable_panics
    (o : PreimageOracle) (p : TrackingPreimageOracleReader) (key : Hash) (offset : Z) :
  reachable o p ->
  8 + Z.of_nat (length (preimages o key)) < offset ->
  ReadPreimage p key offset = Panic "slice bounds out of range".
Proof.
  intros Hreach Hoff.
  destruct (reachable_cache o p Hreach) as [Hpre [Hc|[Hnil Hzero]]].
  - rewrite <- Hpre in Hoff. apply ReadPreimage_coherent_panics; [right; exact Hc | exact Hoff].
  - apply ReadPreimage_panics. cbv zeta.
    destruct (decide (key ≠ lastPreimageKey p)).
    + rewrite length_prefixed, Hpre. lia.
    + rewrite Hnil. cbn [length]. lia.
Qed.

End ReachableReaders.

(** ** The ELF loader *)

Section LoaderProperties.

Import program.

Context {Memory MemErr T : Type} `{FPVMState Memory T}.
Variable maxAlloc : Z.
Variable SetMemoryRange : Memory -> Z -> list byte -> result MemErr Memory.
Variable initState : Z -> Z -> outcome T.

Lemma HEAP_START_lt : HEAP_START < 2 ^ 64.
Proof. reflexivity. Qed.

Lemma wrap64_end (p : Prog) :
  wf_prog p -> Vaddr p + Memsz p < 2 ^ 64 -> wrap64 (Vaddr p + Memsz p) = Vaddr p + Memsz p.
Proof. intros (Hv & _ & Hm) Hlt. unfold wrap64. apply Z.mod_small. lia. Qed.

(** [make] returns zero bytes within its two bounds and panics beyond
    either. *)
Lemma make_returns (n : Z) :
  n < 2 ^ 63 -> n <= maxAlloc -> make maxAlloc n = Ret (repeat x00 (Z.to_nat n)).
Proof.
  intros H63 Hmax. unfold make.
  destruct (decide (n < 2 ^ 63 /\ n <= maxAlloc)) as [_|Hn]; [reflexivity|].
  exfalso. apply Hn. split; assumption.
Qed.

Lemma make_panics (n : Z) :
  2 ^ 63 <= n \/ maxAlloc < n ->
  make maxAlloc n = Panic "runtime error: makeslice: len out of range".
Proof.
  intros Hbig. unfold make.
  destruct (decide (n < 2 ^ 63 /\ n <= maxAlloc)) as [[H63 Hmax]|_]; [lia | reflexivity].
Qed.

(** A segment with accepted sizes whose padding can be allocated is read
    as its image. *)
Lemma segmentReader_ok (i : nat) (p : Prog) :
  sizes_ok p -> allocable maxAlloc p ->
  segmentReader (MemErr := MemErr) maxAlloc i p = Ret (Ok (image p)).
Proof.
  intros Hs Ha. unfold segmentReader, image.
  destruct (decide (Filesz p ≠ Memsz p)) as [Hne|Heq].
  - destruct Hs as [Heq|[Hload Hlt]]; [contradiction|].
    destruct (decide (Type_ p = PT_LOAD)); [|contradiction].
    destruct (decide (Filesz p < Memsz p)); [|contradiction].
    destruct (Ha Hload Hlt) as [H63 Hmax].
    rewrite (make_returns _ H63 Hmax). reflexivity.
  - apply dec_stable in Heq. rewrite Heq, Z.sub_diag, app_nil_r. reflexivity.
Qed.

(** The padding is allocated, and the allocation may panic, before
    anything else is looked at. *)
Lemma segmentReader_panics (i : nat) (p : Prog) :
  Type_ p = PT_LOAD -> Filesz p < Memsz p ->
  2 ^ 63 <= Memsz p - Filesz p \/ maxAlloc < Memsz p - Filesz p ->
  segmentReader (MemErr := MemErr) maxAlloc i p =
    Panic "runtime error: makeslice: len out of range".
Proof.
  intros Hload Hlt Hbig. unfold segmentReader.
  destruct (decide (Filesz p ≠ Memsz p)); [|lia].
  destruct (decide (Type_ p = PT_LOAD)); [|contradiction].
  destruct (decide (Filesz p < Memsz p)); [|contradiction].
  rewrite (make_panics _ Hbig). reflexivity.
Qed.

Lemma segmentReader_load_too_big (i : nat) (p : Prog) :
  Type_ p = PT_LOAD -> Memsz p < Filesz p ->
  segmentReader (MemErr := MemErr) maxAlloc i p =
    Ret (Err (InvalidPTLoadFileSize i (Filesz p) (Memsz p))).
Proof.
  intros Hload Hgt. unfold segmentReader.
  destruct (decide (Filesz p ≠ Memsz p)); [|lia].
  destruct (decide (Type_ p = PT_LOAD)); [|contradiction].
  destruct (decide (Filesz p < Memsz p)); [lia|reflexivity].
Qed.

Lemma segmentReader_other_mismatch (i : nat) (p : Prog) :
  Type_ p ≠ PT_LOAD -> Filesz p ≠ Memsz p ->
  segmentReader (MemErr := MemErr) maxAlloc i p =
    Ret (Err (NonLoadSizeMismatch i (Filesz p) (Memsz p))).
Proof.
  intros Hload Hne. unfold segmentReader.
  destruct (decide (Filesz p ≠ Memsz p)); [|contradiction].
  destruct (decide (Type_ p = PT_LOAD)); [contradiction|reflexivity].
Qed.

Lemma not_sizes_ok (p : Prog) :
  ~ sizes_ok p <->
  (Type_ p = PT_LOAD /\ Memsz p < Filesz p) \/ (Type_ p ≠ PT_LOAD /\ Filesz p ≠ Memsz p).
Proof.
  unfold sizes_ok. lia.
Qed.

Lemma segmentReader_refused (i : nat) (p : Prog) :
  ~ sizes_ok p -> exists e, segmentReader (MemErr := MemErr) maxAlloc i p = Ret (Err e).
Proof.
  intros Hn. apply not_sizes_ok in Hn as [[Hl Hgt]|[Hl Hne]].
  - eexists. apply segmentReader_load_too_big; assumption.
  - eexists. apply segmentReader_other_mismatch; assumption.
Qed.

(** One turn of the loop on a segment that passes the checks. *)
Lemma loadProgs_cons_accepted (i : nat) (p : Prog) (rest : list Prog) (s : T) :
  wf_prog p -> ~ skipped p -> sizes_ok p -> allocable maxAlloc p -> ends_below_heap p ->
  loadProgs maxAlloc SetMemoryRange i (p :: rest) s =
    match SetMemoryRange (GetMemory s) (Vaddr p) (image p) with
    | Err err => Ret (Err (ReadSegmentFailed i err))
    | Ok m => loadProgs maxAlloc SetMemoryRange (S i) rest (withMemory s m)
    end.
Proof.
  intros Hwf Hns Hs Ha Hb. cbn [loadProgs].
  destruct (decide (Type_ p = MIPS_ABIFLAGS)); [contradiction|].
  rewrite (segmentReader_ok i p Hs Ha).
  unfold ends_below_heap in Hb. pose proof HEAP_START_lt as Hh.
  rewrite (wrap64_end p Hwf) by lia.
  destruct (decide (Vaddr p + Memsz p >= HEAP_START)); [lia|reflexivity].
Qed.

Lemma loadProgs_cons_skipped (i : nat) (p : Prog) (rest : list Prog) (s : T) :
  skipped p ->
  loadProgs maxAlloc SetMemoryRange i (p :: rest) s =
    loadProgs maxAlloc SetMemoryRange (S i) rest s.
Proof.
  intros Hs. cbn [loadProgs].
  destruct (decide (Type_ p = MIPS_ABIFLAGS)); [reflexivity|contradiction].
Qed.

Lemma loadProgs_cons_above (i : nat) (p : Prog) (rest : list Prog) (s : T) :
  wf_prog p -> ~ skipped p -> sizes_ok p -> allocable maxAlloc p -> ends_above_heap p ->
  loadProgs maxAlloc SetMemoryRange i (p :: rest) s =
    Ret (Err (OverlapsHeap i (Vaddr p) (Vaddr p + Memsz p) (Memsz p))).
Proof.
  intros Hwf Hns Hs Hal [Ha Hlt]. cbn [loadProgs].
  destruct (decide (Type_ p = MIPS_ABIFLAGS)); [contradiction|].
  rewrite (segmentReader_ok i p Hs Hal).
  rewrite (wrap64_end p Hwf) by lia.
  destruct (decide (Vaddr p + Memsz p >= HEAP_START)); [reflexivity|lia].
Qed.

(** One turn of the loop on a segment for which no reader is built: the
    error of the size checks, or the panic of [make], ends the loop. *)
Lemma loadProgs_cons_refused (i : nat) (p : Prog) (rest : list Prog) (s : T) :
  ~ skipped p ->
  loadProgs maxAlloc SetMemoryRange i (p :: rest) s =
    match segmentReader maxAlloc i p with
    | Panic msg => Panic msg
    | Ret (Err e) => Ret (Err e)
    | Ret (Ok r) => loadProgs maxAlloc SetMemoryRange i (p :: rest) s
    end.
Proof.
  intros Hns. destruct (segmentReader maxAlloc i p) as [[r|e]|msg] eqn:Hr; [reflexivity| |];
    cbn [loadProgs];
    (destruct (decide (Type_ p = MIPS_ABIFLAGS)); [contradiction|]);
    rewrite Hr; reflexivity.
Qed.

(** The loop over accepted segments writes their images in order. *)
Lemma loadProgs_accepted (progs : list Prog) (i : nat) (s : T) (m' : Memory) :
  Forall wf_prog progs -> Forall (accepted maxAlloc) progs ->
  writeSegments SetMemoryRange (GetMemory s) progs = Ok m' ->
  exists s', loadProgs maxAlloc SetMemoryRange i progs s = Ret (Ok s') /\ GetMemory s' = m'.
Proof.
  revert i s. induction progs as [|p rest IH]; intros i s Hwf Hacc Hw.
  - cbn in *. injection Hw as <-. exists s. split; reflexivity.
  - inversion Hwf as [|? ? Hwfp Hwfr]; subst. inversion Hacc as [|? ? Hp Hr]; subst.
    cbn [writeSegments] in Hw.
    destruct (decide (Type_ p = MIPS_ABIFLAGS)) as [Hsk|Hns].
    + rewrite loadProgs_cons_skipped by exact Hsk. apply IH; assumption.
    + destruct Hp as [Hsk|(Hs & Ha & Hb)]; [contradiction|].
      rewrite loadProgs_cons_accepted by assumption.
      destruct (SetMemoryRange (GetMemory s) (Vaddr p) (image p)) as [m1|e]; [|discriminate].
      apply IH; try assumption. rewrite GetMemory_withMemory. exact Hw.
Qed.

Lemma loadProgs_app (pre rest : list Prog) (i : nat) (s : T) :
  loadProgs maxAlloc SetMemoryRange i (pre ++ rest) s =
    match loadProgs maxAlloc SetMemoryRange i pre s with
    | Ret (Ok s1) => loadProgs maxAlloc SetMemoryRange (i + length pre) rest s1
    | Ret (Err e) => Ret (Err e)
    | Panic msg => Panic msg
    end.
Proof.
  revert i s. induction pre as [|p pre IH]; intros i s.
  - cbn. rewrite Nat.add_0_r. reflexivity.
  - cbn [app loadProgs length].
    replace (i + S (length pre))%nat with (S i + length pre)%nat by lia.
    destruct (decide (Type_ p = MIPS_ABIFLAGS)); [apply IH|].
    destruct (segmentReader maxAlloc i p) as [[r|]|]; [|reflexivity..].
    destruct (decide (wrap64 (Vaddr p + Memsz p) >= HEAP_START)); [reflexivity|].
    destruct (SetMemoryRange (GetMemory s) (Vaddr p) r); [apply IH|reflexivity].
Qed.

(** When every padding can be allocated, no write fails and no segment
    is irregular, the loop fails exactly when it meets an offending
    segment. *)
Lemma loadProgs_fails_iff (progs : list Prog) (i : nat) (s : T) :
  Forall wf_prog progs -> Forall regular progs -> Forall (allocable maxAlloc) progs ->
  (forall m a r, exists m', SetMemoryRange m a r = Ok m') ->
  (exists e, loadProgs maxAlloc SetMemoryRange i progs s = Ret (Err e)) <->
  Exists offending progs.
Proof.
  intros Hwf Hreg Hall Htot. revert i s.
  induction progs as [|p rest IH]; intros i s.
  - cbn. split; [intros [e He]; discriminate | intros Hex; inversion Hex].
  - inversion Hwf as [|? ? Hwfp Hwfr]; subst. inversion Hreg as [|? ? Hp Hr]; subst.
    inversion Hall as [|? ? Hap Har]; subst.
    rewrite Exists_cons. specialize (IH Hwfr Hr Har).
    destruct (decide (Type_ p = MIPS_ABIFLAGS)) as [Hsk|Hns].
    { rewrite loadProgs_cons_skipped by exact Hsk. rewrite IH.
      unfold offending. intuition. }
    assert (Hdec : sizes_ok p \/ ~ sizes_ok p) by (unfold sizes_ok; lia).
    destruct Hdec as [Hs|Hn].
    + destruct Hp as [Hsk|[Hn|[Hb|Ha]]]; try contradiction.
      * rewrite loadProgs_cons_accepted by assumption.
        destruct (Htot (GetMemory s) (Vaddr p) (image p)) as [m1 ->].
        rewrite IH. unfold offending, ends_above_heap, ends_below_heap in *. intuition lia.
      * rewrite loadProgs_cons_above by assumption.
        split; [intros _; left; split; auto | intros _; eexists; reflexivity].
    + destruct (segmentReader_refused i p Hn) as [e He].
      rewrite loadProgs_cons_refused, He by exact Hns.
      split; [intros _; left; split; auto | intros _; eexists; reflexivity].
Qed.

(** C7, amended.  [LoadELF] skips the segments of type [MIPS_ABIFLAGS]
    and takes the others in order.  When each of them has accepted sizes, a
    padding that can be allocated and an end below [HEAP_START], and the
    writes succeed, the memory of the result holds their images: the file
    bytes, then [Memsz - Filesz] zero bytes.  It stops at the first segment,
    not skipped, that does not pass.  It fails there when the segment is a
    [PT_LOAD] with more bytes in the file than in memory, or of another type
    with different sizes.  It panics there when the segment is a [PT_LOAD]
    with less in the file than in memory whose padding of [Memsz - Filesz]
    bytes does not fit an [int] or is more than the run time allocates,
    wherever the segment ends: the padding is made before the heap is looked
    at.  Otherwise it fails there when the segment ends above [HEAP_START],
    or when its write fails.  With paddings that can be allocated, writes
    that cannot fail and no segment ending at [HEAP_START] itself or
    reaching the end of the address space, it fails exactly when there is a
    segment with refused sizes or an end above [HEAP_START]. *)
Theorem LoadELF_segments (f : File) (s0 : T) :
  initState (Entry f) HEAP_START = Ret s0 ->
  Forall wf_prog (Progs f) ->
  (forall m', Forall (accepted maxAlloc) (Progs f) ->
     writeSegments SetMemoryRange (GetMemory s0) (Progs f) = Ok m' ->
     exists s', LoadELF maxAlloc SetMemoryRange initState f = Ret (Ok s') /\
                GetMemory s' = m') /\
  (forall pre p post m,
     Progs f = pre ++ p :: post -> Forall (accepted maxAlloc) pre ->
     writeSegments SetMemoryRange (GetMemory s0) pre = Ok m -> ~ skipped p ->
     (Type_ p = PT_LOAD -> Memsz p < Filesz p ->
      LoadELF maxAlloc SetMemoryRange initState f =
        Ret (Err (InvalidPTLoadFileSize (length pre) (Filesz p) (Memsz p)))) /\
     (Type_ p ≠ PT_LOAD -> Filesz p ≠ Memsz p ->
      LoadELF maxAlloc SetMemoryRange initState f =
        Ret (Err (NonLoadSizeMismatch (length pre) (Filesz p) (Memsz p)))) /\
     (Type_ p = PT_LOAD -> Filesz p < Memsz p ->
      2 ^ 63 <= Memsz p - Filesz p \/ maxAlloc < Memsz p - Filesz p ->
      LoadELF maxAlloc SetMemoryRange initState f =
        Panic "runtime error: makeslice: len out of range") /\
     (sizes_ok p -> allocable maxAlloc p -> ends_above_heap p ->
      LoadELF maxAlloc SetMemoryRange initState f =
        Ret (Err (OverlapsHeap (length pre) (Vaddr p) (Vaddr p + Memsz p) (Memsz p)))) /\
     (sizes_ok p -> allocable maxAlloc p -> ends_below_heap p ->
      forall e, SetMemoryRange m (Vaddr p) (image p) = Err e ->
      LoadELF maxAlloc SetMemoryRange initState f =
        Ret (Err (ReadSegmentFailed (length pre) e)))) /\
  ((forall m a r, exists m', SetMemoryRange m a r = Ok m') ->
   Forall regular (Progs f) -> Forall (allocable maxAlloc) (Progs f) ->
   (fails (LoadELF maxAlloc SetMemoryRange initState f) <-> Exists offending (Progs f))).
Proof.
  intros Hinit Hwf. unfold LoadELF, fails. rewrite Hinit. cbn [mbind outcome_bind].
  split; [|split].
  - intros m' Hacc Hw.
    destruct (loadProgs_accepted (Progs f) 0 s0 m' Hwf Hacc Hw) as (s' & -> & Hm).
    exists s'. split; [reflexivity | exact Hm].
  - intros pre p post m Hf Hacc Hw Hns.
    rewrite Hf in Hwf. apply Forall_app in Hwf as [Hwfpre Hwfp].
    inversion Hwfp as [|? ? Hwp _]; subst.
    destruct (loadProgs_accepted pre 0 s0 m Hwfpre Hacc Hw) as (s1 & Hpre & Hm).
    rewrite Hf, loadProgs_app, Hpre. cbn [Nat.add].
    repeat apply conj.
    + intros Hl Hgt. rewrite loadProgs_cons_refused by exact Hns.
      rewrite segmentReader_load_too_big by assumption. reflexivity.
    + intros Hl Hne. rewrite loadProgs_cons_refused by exact Hns.
      rewrite segmentReader_other_mismatch by assumption. reflexivity.
    + intros Hl Hlt Hbig. rewrite loadProgs_cons_refused by exact Hns.
      rewrite segmentReader_panics by assumption. reflexivity.
    + intros Hs Hal Ha. rewrite loadProgs_cons_above by assumption. reflexivity.
    + intros Hs Hal Hb e He. rewrite loadProgs_cons_accepted by assumption.
      rewrite Hm, He. reflexivity.
  - intros Htot Hreg Hall.
    exact (loadProgs_fails_iff (Progs f) 0 s0 Hwf Hreg Hall Htot).
Qed.

End LoaderProperties.

(** The padded example loads: the ABI flags are passed over and the two
    file bytes are followed by two zero bytes.  The example with a padding
    of [2^60 + 1] bytes panics, although its segment ends above
    [HEAP_START]. *)
Lemma LoadELF_segments_witness :
  (exists s',
     program.loadIntoLog program.padded_elf = Ret (Ok s') /\
     Memory s' = [(0x400000, [x01; x02; x00; x00])]) /\
  program.loadIntoLog program.huge_padding_elf =
    Panic "runtime error: makeslice: len out of range".
Proof.
  split.
  - assert (Hwf : Forall program.wf_prog (program.Progs program.padded_elf)).
    { repeat constructor; cbn; lia. }
    destruct (LoadELF_segments program.maxAlloc64 program.logSetMemoryRange
                (CreateInitialState []) program.padded_elf _ eq_refl Hwf) as [Hok _].
    apply Hok.
    + constructor; [left; reflexivity|].
      constructor; [|constructor].
      right. split; [right; split; reflexivity|].
      split; [|reflexivity].
      intros _ _. cbn. unfold program.maxAlloc64. lia.
    + reflexivity.
  - assert (Hwf : Forall program.wf_prog (program.Progs program.huge_padding_elf)).
    { repeat constructor; cbn; lia. }
    destruct (LoadELF_segments program.maxAlloc64 program.logSetMemoryRange
                (CreateInitialState []) program.huge_padding_elf _ eq_refl Hwf)
      as (_ & Hstop & _).
    assert (Hns : ~ program.skipped program.huge_padding_prog).
    { unfold program.skipped. cbn. discriminate. }
    destruct (Hstop [] program.huge_padding_prog [] [] eq_refl (Forall_nil_2 _) eq_refl Hns)
      as (_ & _ & Hpanic & _).
    apply Hpanic; cbn; [reflexivity | lia |]. right. unfold program.maxAlloc64. lia.
Defined.

(** C7 as stated, refuted.  A segment with equal sizes that lies a page
    above [HEAP_START] does not straddle it, and the loader fails on it. *)
Lemma LoadELF_above_heap_counterexample :
  ~ (fails (program.loadIntoLog program.above_heap_elf) <->
     program.refused_or_straddling program.above_heap_elf).
Proof.
  intros [Hfail _].
  assert (Hf : fails (program.loadIntoLog program.above_heap_elf))
    by (eexists; vm_compute; reflexivity).
  apply Hfail in Hf. unfold program.refused_or_straddling in Hf. cbn in Hf.
  apply Exists_cons in Hf as [[_ [Hn|[Hlt _]]]|Hnil].
  - apply Hn. left. reflexivity.
  - unfold program.HEAP_START in Hlt. cbn in Hlt. lia.
  - inversion Hnil.
Qed.

(** The heap check at its edges.  A segment that ends at [HEAP_START]
    itself is refused although it lies below the heap, and one that runs
    past the end of the address space is let through. *)
Example LoadELF_boundary_refused :
  Forall program.entirely_below_heap (program.Progs program.boundary_elf) /\
  program.loadIntoLog program.boundary_elf =
    Ret (Err (program.OverlapsHeap 0 (program.HEAP_START - 4) program.HEAP_START 4)).
Proof.
  split; [|vm_compute; reflexivity].
  repeat constructor. unfold program.entirely_below_heap. cbn. discriminate.
Qed.

Example LoadELF_wrapping_accepted :
  Forall program.straddles_heap (program.Progs program.wrapping_elf) /\
  exists s', program.loadIntoLog program.wrapping_elf = Ret (Ok s').
Proof.
  split; [|eexists; vm_compute; reflexivity].
  repeat constructor.
Qed.

(* ===================================================================== *)
(** * Further properties *)
(* ===================================================================== *)

(** ** Words are read back *)

(** A byte of a word is a byte of the word as a [uint64]. *)
Lemma u8_shiftr_wrap64 (v k : Z) :
  0 <= k -> k + 8 <= 64 -> u8 (Z.shiftr (wrap64 v) k) = u8 (Z.shiftr v k).
Proof.
  intros Hk Hk8. unfold u8, wrap64.
  replace (Z.shiftr (v mod 2 ^ 64) k mod 256) with (Z.shiftr v k mod 256); [reflexivity|].
  change 256 with (2 ^ 8). apply Z.bits_inj'. intros n Hn.
  destruct (Z.lt_ge_cases n 8) as [Hlt|Hge].
  - rewrite !Z.mod_pow2_bits_low, !Z.shiftr_spec by lia.
    rewrite Z.mod_pow2_bits_low by lia. reflexivity.
  - rewrite !Z.mod_pow2_bits_high by lia. reflexivity.
Qed.

Lemma AppendUint64_wrap64 (b : list byte) (v : Z) :
  AppendUint64 b (wrap64 v) = AppendUint64 b v.
Proof.
  pose proof (u8_shiftr_wrap64 v 0) as H0. rewrite !Z.shiftr_0_r in H0.
  unfold AppendUint64.
  rewrite (u8_shiftr_wrap64 v 56), (u8_shiftr_wrap64 v 48), (u8_shiftr_wrap64 v 40),
    (u8_shiftr_wrap64 v 32), (u8_shiftr_wrap64 v 24), (u8_shiftr_wrap64 v 16),
    (u8_shiftr_wrap64 v 8), H0 by lia.
  reflexivity.
Qed.

(** Two words are written alike exactly when they are the same
    [uint64]. *)
Lemma AppendUint64_eq_iff (v1 v2 : Z) :
  AppendUint64 [] v1 = AppendUint64 [] v2 <-> wrap64 v1 = wrap64 v2.
Proof.
  split; intros Heq.
  - rewrite <- !be_value_AppendUint64, Heq. reflexivity.
  - rewrite <- (AppendUint64_wrap64 [] v1), <- (AppendUint64_wrap64 [] v2), Heq. reflexivity.
Qed.

Lemma AppendUint64_cong (b : list byte) (v1 v2 : Z) :
  wrap64 v1 = wrap64 v2 -> AppendUint64 b v1 = AppendUint64 b v2.
Proof.
  intros Heq. rewrite <- (AppendUint64_wrap64 b v1), <- (AppendUint64_wrap64 b v2), Heq.
  reflexivity.
Qed.

Lemma fold_AppendUint64_cong (l1 l2 : list Z) (out : list byte) :
  Forall2 (fun a b => wrap64 a = wrap64 b) l1 l2 ->
  fold_left AppendUint64 l1 out = fold_left AppendUint64 l2 out.
Proof.
  intros Hall. revert out. induction Hall as [|a b l1 l2 Hab _ IH]; intros out.
  - reflexivity.
  - cbn [fold_left]. rewrite (AppendUint64_cong out a b Hab). apply IH.
Qed.

(** ** What the serialisations determine *)

Lemma serializeThread_cong (t1 t2 : ThreadState) :
  same_thread t1 t2 -> serializeThread t1 = serializeThread t2.
Proof.
  intros (Hid & Hec & Hex & Hfa & Hfv & Hft & Hpc & Hnpc & Hlo & Hhi & Hregs).
  unfold serializeThread. cbv zeta. rewrite Hec, Hex.
  rewrite (AppendUint64_cong _ _ _ Hid), (AppendUint64_cong _ _ _ Hfa),
    (AppendUint64_cong _ _ _ Hfv), (AppendUint64_cong _ _ _ Hft),
    (AppendUint64_cong _ _ _ Hpc), (AppendUint64_cong _ _ _ Hnpc),
    (AppendUint64_cong _ _ _ Hlo), (AppendUint64_cong _ _ _ Hhi).
  apply fold_AppendUint64_cong.
  apply Forall2_same_length_lookup. split.
  - rewrite !length_vec_to_list. reflexivity.
  - intros i a b Ha Hb.
    apply vlookup_lookup' in Ha as [Hlt <-]. apply vlookup_lookup' in Hb as [Hlt' <-].
    rewrite (proof_irrel Hlt' Hlt). apply Hregs.
Qed.

Lemma singleton_bool_byte (b1 b2 : bool) :
  [if b1 then x01 else x00] = [if b2 then x01 else x00] -> b1 = b2.
Proof. destruct b1, b2; intros Heq; congruence. Qed.

Lemma serializeThread_same (t1 t2 : ThreadState) :
  serializeThread t1 = serializeThread t2 -> same_thread t1 t2.
Proof.
  intros Heq.
  pose proof (serializeThread_words t1) as H1. pose proof (serializeThread_words t2) as H2.
  cbv zeta in H1, H2. rewrite Heq in H1.
  destruct H1 as (A0 & A8 & A9 & A10 & A18 & A26 & A34 & A42 & A50 & A58 & Ar).
  destruct H2 as (B0 & B8 & B9 & B10 & B18 & B26 & B34 & B42 & B50 & B58 & Br).
  unfold same_thread.
  repeat apply conj;
    try (apply AppendUint64_eq_iff; congruence).
  - congruence.
  - apply singleton_bool_byte. congruence.
  - intros i. apply AppendUint64_eq_iff. rewrite <- Ar, <- Br. reflexivity.
Qed.

Lemma same_thread_wf_eq (t1 t2 : ThreadState) :
  wf_thread t1 -> wf_thread t2 -> same_thread t1 t2 -> t1 = t2.
Proof.
  intros (W1 & W2 & W3 & W4 & W5 & W6 & W7 & W8 & W9)
         (V1 & V2 & V3 & V4 & V5 & V6 & V7 & V8 & V9)
         (Hid & Hec & Hex & Hfa & Hfv & Hft & Hpc & Hnpc & Hlo & Hhi & Hregs).
  unfold is_uint64 in *.
  rewrite !wrap64_small in * by assumption.
  assert (Hr : Thread.Registers t1 = Thread.Registers t2).
  { apply vec_eq. intros i. specialize (Hregs i).
    rewrite !wrap64_small in Hregs by auto. exact Hregs. }
  destruct t1 as [id1 ec1 ex1 fa1 fv1 ft1 [pc1 npc1 lo1 hi1] r1].
  destruct t2 as [id2 ec2 ex2 fa2 fv2 ft2 [pc2 npc2 lo2 hi2] r2].
  cbn in *. congruence.
Qed.

(** X4.  Two threads have the same serialisation exactly when they agree
    on every field as [uint64] values; threads whose fields are [uint64]
    values and that serialise alike are equal. *)
Theorem serializeThread_injective (t1 t2 : ThreadState) :
  (serializeThread t1 = serializeThread t2 <-> same_thread t1 t2) /\
  (wf_thread t1 -> wf_thread t2 -> serializeThread t1 = serializeThread t2 -> t1 = t2).
Proof.
  split.
  - split; [apply serializeThread_same | apply serializeThread_cong].
  - intros Hw1 Hw2 Heq. apply same_thread_wf_eq; [assumption..|].
    apply serializeThread_same. exact Heq.
Qed.

Section WitnessDetermines.

Context {memory_Memory : Type}.
Variable MerkleRoot : memory_Memory -> Hash.
Variable VmStatus : bool -> byte -> byte.

Lemma EncodeWitness_cong (s1 s2 : @State memory_Memory) :
  same_witnessed MerkleRoot s1 s2 ->
  EncodeWitness MerkleRoot VmStatus s1 = EncodeWitness MerkleRoot VmStatus s2.
Proof.
  intros (Hm & Hk & Hpo & Hh & Hec & Hex & Hst & Hss & Hw & Htr & Hl & Hr & Hn).
  unfold EncodeWitness, getLeftThreadStackRoot, getRightThreadStackRoot. cbv zeta.
  rewrite Hm, Hk, Hec, Hex, Htr, Hl, Hr.
  rewrite (AppendUint64_cong _ _ _ Hpo), (AppendUint64_cong _ _ _ Hh),
    (AppendUint64_cong _ _ _ Hst), (AppendUint64_cong _ _ _ Hss),
    (AppendUint64_cong _ _ _ Hw), (AppendUint64_cong _ _ _ Hn).
  reflexivity.
Qed.

Lemma EncodeWitness_same (s1 s2 : @State memory_Memory) (w : list byte) (h1 h2 : Hash) :
  EncodeWitness MerkleRoot VmStatus s1 = Ret (w, h1) ->
  EncodeWitness MerkleRoot VmStatus s2 = Ret (w, h2) ->
  same_witnessed MerkleRoot s1 s2.
Proof.
  intros E1 E2.
  destruct (EncodeWitness_returns MerkleRoot VmStatus s1)
    as (w1 & F1 & _ & A0 & A32 & A64 & A72 & A80 & A81 & A82 & A90 & A98 & A106
        & A107 & A139 & A171).
  destruct (EncodeWitness_returns MerkleRoot VmStatus s2)
    as (w2 & F2 & _ & B0 & B32 & B64 & B72 & B80 & B81 & B82 & B90 & B98 & B106
        & B107 & B139 & B171).
  rewrite E1 in F1. injection F1 as <- _. rewrite E2 in F2. injection F2 as <- _.
  unfold same_witnessed.
  repeat apply conj;
    try (apply AppendUint64_eq_iff; congruence);
    try (apply vec_to_list_inj2; congruence);
    try (apply singleton_bool_byte; congruence).
  congruence.
Qed.

(** X3.  Two states are encoded to the same witness and hash exactly when
    they agree on what the witness holds: the memory root, the preimage key,
    the scalar fields as [uint64] values, the exit fields, the direction and
    the roots of the two stacks.  The last hint and the threads beyond
    their stack roots play no part. *)
Theorem EncodeWitness_determines (s1 s2 : @State memory_Memory) :
  EncodeWitness MerkleRoot VmStatus s1 = EncodeWitness MerkleRoot VmStatus s2 <->
  same_witnessed MerkleRoot s1 s2.
Proof.
  split.
  - intros Heq.
    destruct (EncodeWitness_returns MerkleRoot VmStatus s1) as (w1 & F1 & _).
    pose proof F1 as F2. rewrite Heq in F2.
    exact (EncodeWitness_same s1 s2 w1 _ _ F1 F2).
  - apply EncodeWitness_cong.
Qed.

(** X5.  The hash function handed out by [GetStateHashFn], applied to the
    bytes [EncodeWitness] returns, gives the hash [EncodeWitness] returns
    and a nil error. *)
Theorem GetStateHashFn_EncodeWitness (s : @State memory_Memory) :
  exists (w : list byte) (h : Hash),
    EncodeWitness MerkleRoot VmStatus s = Ret (w, h) /\
    GetStateHashFn VmStatus w = Ret (h, None).
Proof.
  destruct (EncodeWitness_returns MerkleRoot VmStatus s)
    as (w & Henc & Hlen & _ & _ & _ & _ & Hec & Hex & _).
  eexists w, _. split; [exact Henc|].
  unfold GetStateHashFn, StateHash.
  destruct (decide (length w ≠ STATE_WITNESS_SIZE)) as [Hne|_]; [contradiction|].
  rewrite (stateHashFromWitness_sized VmStatus w _ _ Hlen (slice_1_lookup _ _ _ Hec)
             (slice_1_lookup _ _ _ Hex)).
  rewrite bool_byte_decide. reflexivity.
Qed.

(** X2.  The thread proof opens the witness: hashing the 32 bytes at
    offset 322 of the proof followed by the hash of its first 322 bytes
    gives the root the witness holds for the active stack, at offset 139
    when [TraverseRight] is set and at offset 107 otherwise. *)
Theorem EncodeThreadProof_opens_witness
    (s : @State memory_Memory) (proof w : list byte) (h : Hash) :
  EncodeThreadProof s = Ret proof ->
  EncodeWitness MerkleRoot VmStatus s = Ret (w, h) ->
  vec_to_list
    (crypto.Keccak256Hash
       (slice 322 32 proof ++ vec_to_list (crypto.Keccak256Hash (slice 0 322 proof)))) =
  slice (if TraverseRight s then 139 else 107) 32 w.
Proof.
  intros Hproof Henc.
  destruct (decide (getActiveThreadStack s = [])) as [He|Hne].
  { rewrite (EncodeThreadProof_empty s He) in Hproof. discriminate. }
  destruct (active_stack_top s Hne) as (others & t & Hs & _ & _).
  rewrite (EncodeThreadProof_top s others t Hs) in Hproof. injection Hproof as <-.
  destruct (EncodeWitness_returns MerkleRoot VmStatus s)
    as (w' & F & _ & _ & _ & _ & _ & _ & _ & _ & _ & _ & _ & H107 & H139 & _).
  rewrite Henc in F. injection F as <- _.
  pose proof (length_serializeThread t) as Hlen.
  change SERIALIZED_THREAD_SIZE with 322%nat in Hlen.
  rewrite (slice_app_r 322 32) by (auto using length_vec_to_list).
  rewrite slice_app_l by lia.
  replace (slice 0 322 (serializeThread t)) with (serializeThread t)
    by (unfold slice; rewrite drop_0, <- Hlen, firstn_all; reflexivity).
  rewrite <- calculateThreadStackRoot_push, <- Hs.
  unfold getActiveThreadStack. destruct (TraverseRight s); [rewrite H139 | rewrite H107];
    reflexivity.
Qed.

End WitnessDetermines.

(** The first state of a run opens its own witness. *)
Lemma EncodeThreadProof_opens_witness_witness :
  exists (proof w : list byte) (h : Hash),
    EncodeThreadProof (CreateEmptyState tt) = Ret proof /\
    EncodeWitness (fun _ : unit => zero_hash) (fun _ _ => x00) (CreateEmptyState tt) = Ret (w, h) /\
    vec_to_list
      (crypto.Keccak256Hash
         (slice 322 32 proof ++ vec_to_list (crypto.Keccak256Hash (slice 0 322 proof)))) =
    slice 107 32 w.
Proof.
  destruct (EncodeWitness_returns (fun _ : unit => zero_hash) (fun _ _ => x00)
              (CreateEmptyState tt)) as (w & Henc & _).
  pose proof (EncodeThreadProof_top (CreateEmptyState tt) [] CreateEmptyThread eq_refl) as Hp.
  eexists _, w, _. split; [exact Hp|]. split; [exact Henc|].
  exact (EncodeThreadProof_opens_witness _ _ (CreateEmptyState tt) _ w _ Hp Henc).
Defined.

(** ** The first state *)

Section InitialState.

Context {memory_Memory : Type}.
Variable NewMemory : memory_Memory.

Lemma CreateInitialState_returns (pc heapStart : Z) :
  CreateInitialState NewMemory pc heapStart =
    Ret (setHeap
           (setCurrentThread (CreateEmptyState NewMemory)
              {| Thread.ThreadId := 0; Thread.ExitCode := x00; Thread.Exited := false;
                 Thread.FutexAddr := exec.FutexEmptyAddr; Thread.FutexVal := 0;
                 Thread.FutexTimeoutStep := 0;
                 Thread.Cpu := {| PC := pc; NextPC := wrap64 (pc + 4); LO := 0; HI := 0 |};
                 Thread.Registers := vreplicate 32 0 |})
           heapStart).
Proof. reflexivity. Qed.

(** X1.  [CreateInitialState] does not panic.  The state it returns has
    one thread, of id 0, on the left stack, which is the active one; the
    writes made through the pointer to that thread are seen by the
    accessors: [GetPC] is [pc], the next PC is [pc + 4] as a [uint64], the
    registers are zero; the heap is [heapStart], the next thread id is 1,
    and the state has not exited. *)
Theorem CreateInitialState_accessors (pc heapStart : Z) :
  exists s : @State memory_Memory,
    CreateInitialState NewMemory pc heapStart = Ret s /\
    GetPC s = Ret pc /\
    getCpu s = Ret {| PC := pc; NextPC := wrap64 (pc + 4); LO := 0; HI := 0 |} /\
    GetRegisters s = Ret (vreplicate 32 0) /\
    (Thread.ThreadId <$> LeftThreadStack s) = [0] /\
    RightThreadStack s = [] /\
    TraverseRight s = false /\
    threadCount s = 1%nat /\
    Heap s = heapStart /\
    NextThreadId s = 1 /\
    GetExited s = false /\
    GetExitCode s = x00 /\
    GetStep s = 0 /\
    GetMemory s = NewMemory.
Proof.
  eexists. split; [apply CreateInitialState_returns|].
  repeat apply conj; reflexivity.
Qed.

End InitialState.

(** ** More on the preimage reader *)

Section ReaderProperties.

Import exec.

(** [ReadPreimage] does not go through the counting [GetPreimage]. *)
Lemma ReadPreimage_counters
    (p p' : TrackingPreimageOracleReader) (key : Hash) (offset : Z) (dat : Hash) (n : Z) :
  ReadPreimage p key offset = Ret (p', dat, n) ->
  totalPreimageSize p' = totalPreimageSize p /\
  numPreimageRequests p' = numPreimageRequests p /\
  hinted (po p') = hinted (po p).
Proof.
  unfold ReadPreimage, po_GetPreimage.
  destruct (decide (key ≠ lastPreimageKey p)); cbn [lastPreimage po];
    match goal with
    | |- context [decide (0 <= offset <= ?b)] => destruct (decide (0 <= offset <= b))
    end; try discriminate;
    destruct (copy zero_hash _) as [d m]; intros Heq; injection Heq as <- _ _;
    repeat split; reflexivity.
Qed.

(** X6.  Whatever the reader holds, a call of [ReadPreimage] that returns
    gives a count between 0 and 32, leaves the bytes of the chunk from the
    count on at zero, records the key and the offset, and changes neither
    [TotalPreimageSize] nor [NumPreimageRequests], also when it has fetched
    the preimage from the oracle. *)
Theorem ReadPreimage_chunk_bounds
    (p p' : TrackingPreimageOracleReader) (key : Hash) (offset : Z) (dat : Hash) (n : Z) :
  ReadPreimage p key offset = Ret (p', dat, n) ->
  0 <= n <= 32 /\
  n = Z.min 32 (Z.of_nat (length (lastPreimage p')) - offset) /\
  drop (Z.to_nat n) (vec_to_list dat) = replicate (32 - Z.to_nat n) x00 /\
  take (Z.to_nat n) (vec_to_list dat) =
    slice (Z.to_nat offset) (Z.to_nat n) (lastPreimage p') /\
  LastPreimage p' = (key, lastPreimage p', offset) /\
  TotalPreimageSize p' = TotalPreimageSize p /\
  NumPreimageRequests p' = NumPreimageRequests p.
Proof.
  intros Hread.
  destruct (ReadPreimage_counters p p' key offset dat n Hread) as (Ht & Hn & _).
  set (stream := if decide (key ≠ lastPreimageKey p) then prefixed (preimages (po p) key)
                 else lastPreimage p).
  destruct (decide (0 <= offset <= Z.of_nat (length stream))) as [Hin|Hout].
  - destruct (ReadPreimage_returns p key offset Hin)
      as (q & d & Hq & Hd & Hkey & Hlast & Hoff & _ & _).
    fold stream in Hq, Hd, Hlast.
    assert (Htake : (32 `min` (length stream - Z.to_nat offset))%nat =
                    length (take 32 (drop (Z.to_nat offset) stream)))
      by (rewrite length_take, length_drop; reflexivity).
    remember (32 `min` (length stream - Z.to_nat offset))%nat as m eqn:Hm.
    rewrite Hread in Hq. injection Hq as -> -> ->.
    rewrite Hlast. rewrite Nat2Z.id.
    repeat apply conj; try lia.
    + rewrite Hd, drop_app_length' by exact Htake. reflexivity.
    + rewrite Hd, take_app_length' by exact Htake. unfold slice.
      subst m. rewrite <- take_take.
      replace (length stream - Z.to_nat offset)%nat
        with (length (drop (Z.to_nat offset) stream)) by apply length_drop.
      rewrite firstn_all. reflexivity.
    + unfold LastPreimage. rewrite Hkey, Hlast, Hoff. reflexivity.
    + exact Ht.
    + exact Hn.
  - exfalso. unfold ReadPreimage, po_GetPreimage in Hread. subst stream.
    destruct (decide (key ≠ lastPreimageKey p)); cbn [lastPreimage po] in Hread;
      match type of Hread with
      | context [decide (0 <= offset <= ?b)] =>
          destruct (decide (0 <= offset <= b)); [contradiction | discriminate]
      end.
Qed.

(** A first read of "hello" under a key that is not cached. *)
Lemma ReadPreimage_chunk_bounds_witness :
  exists (p' : TrackingPreimageOracleReader) (dat : Hash) (n : Z),
    ReadPreimage (NewTrackingPreimageOracleReader hello_oracle) one_key 0 = Ret (p', dat, n) /\
    0 <= n <= 32 /\
    NumPreimageRequests p' = 0.
Proof.
  destruct (ReadPreimage_returns (NewTrackingPreimageOracleReader hello_oracle) one_key 0)
    as (p' & dat & Hread & _); [vm_compute; split; discriminate|].
  destruct (ReadPreimage_chunk_bounds _ _ _ _ _ _ Hread) as (Hb & _ & _ & _ & _ & _ & Hn).
  exists p', dat. eexists. split; [exact Hread|]. split; [exact Hb | exact Hn].
Defined.

(** X7.  Once a key has been read, reading it again does not ask the
    oracle: over a read of a key and a second read of the same key, at any
    offset within its prefixed stream, the oracle is asked at most once,
    and only if the key was not the cached one to begin with; the second
    read returns the bytes of the stream at its offset. *)
Theorem ReadPreimage_again
    (p p1 : TrackingPreimageOracleReader) (key : Hash) (offset1 offset2 : Z)
    (dat1 : Hash) (n1 : Z) :
  key ≠ lastPreimageKey p \/ cache_coherent p ->
  ReadPreimage p key offset1 = Ret (p1, dat1, n1) ->
  0 <= offset2 <= 8 + Z.of_nat (length (preimages (po p) key)) ->
  exists (p2 : TrackingPreimageOracleReader) (dat2 : Hash) (n2 : nat),
    ReadPreimage p1 key offset2 = Ret (p2, dat2, Z.of_nat n2) /\
    Z.of_nat n2 = Z.min 32 (8 + Z.of_nat (length (preimages (po p) key)) - offset2) /\
    take n2 (vec_to_list dat2) =
      slice (Z.to_nat offset2) n2 (prefixed (preimages (po p) key)) /\
    queried (po p1) =
      queried (po p) ++ (if decide (key ≠ lastPreimageKey p) then [key] else []) /\
    queried (po p2) = queried (po p1).
Proof.
  intros Hc Hread1 Hoff2.
  assert (Hin1 : 0 <= offset1 <= 8 + Z.of_nat (length (preimages (po p) key))).
  { destruct (Z_le_gt_dec offset1 (8 + Z.of_nat (length (preimages (po p) key)))) as [Hle|Hgt].
    - destruct (Z_le_gt_dec 0 offset1) as [H0|Hneg]; [lia|].
      exfalso. unfold ReadPreimage, po_GetPreimage in Hread1.
      destruct (decide (key ≠ lastPreimageKey p)); cbn [lastPreimage po] in Hread1;
        match type of Hread1 with
        | context [decide (0 <= offset1 <= ?b)] =>
            destruct (decide (0 <= offset1 <= b)); [lia | discriminate]
        end.
    - rewrite ReadPreimage_coherent_panics in Hread1 by (assumption || lia). discriminate. }
  destruct (ReadPreimage_coherent p key offset1 Hc Hin1)
    as (q & d & m & Hq & _ & _ & _ & Hcoh & Hkey & Hqueried).
  rewrite Hread1 in Hq. injection Hq as <- _ _.
  destruct (ReadPreimage_inv p p1 key offset1 dat1 n1 Hread1) as (Hpre & _ & _).
  assert (Hoff2' : 0 <= offset2 <= 8 + Z.of_nat (length (preimages (po p1) key)))
    by (rewrite Hpre; exact Hoff2).
  destruct (ReadPreimage_coherent p1 key offset2 (or_intror Hcoh) Hoff2')
    as (p2 & dat2 & n2 & Hread2 & Hn2 & Htake & _ & _ & _ & Hq2).
  rewrite Hpre in Hn2, Htake.
  exists p2, dat2, n2. repeat apply conj; try assumption.
  rewrite Hq2. destruct (decide (key ≠ lastPreimageKey p1)) as [Hne|_];
    [congruence | apply app_nil_r].
Qed.

(** Two reads of "hello" under a key that is not cached: the length
    prefix, then the five bytes. *)
Lemma ReadPreimage_again_witness :
  exists (p1 p2 : TrackingPreimageOracleReader) (dat1 dat2 : Hash) (n1 : Z) (n2 : nat),
    ReadPreimage (NewTrackingPreimageOracleReader hello_oracle) one_key 0 =
      Ret (p1, dat1, n1) /\
    ReadPreimage p1 one_key 8 = Ret (p2, dat2, Z.of_nat n2) /\
    queried (po p2) = [one_key].
Proof.
  assert (Hne : one_key ≠ lastPreimageKey (NewTrackingPreimageOracleReader hello_oracle))
    by (vm_compute; discriminate).
  destruct (ReadPreimage_returns (NewTrackingPreimageOracleReader hello_oracle) one_key 0)
    as (p1 & dat1 & Hread1 & _); [vm_compute; split; discriminate|].
  destruct (ReadPreimage_again (NewTrackingPreimageOracleReader hello_oracle) p1 one_key
              0 8 dat1 _ (or_introl Hne) Hread1)
    as (p2 & dat2 & n2 & Hread2 & _ & _ & Hq1 & Hq2); [vm_compute; split; discriminate|].
  exists p1, p2, dat1, dat2. eexists. exists n2.
  split; [exact Hread1|]. split; [exact Hread2|].
  rewrite Hq2, Hq1. vm_compute. reflexivity.
Defined.

(** X8.  [Reset] does not flush the cache: it only sets the offset that
    [LastPreimage] reports to the largest [uint64], and a read after a
    [Reset] returns, or panics, exactly as it would have without it, reader
    included. *)
Theorem Reset_keeps_cache (p : TrackingPreimageOracleReader) (key : Hash) (offset : Z) :
  ReadPreimage (Reset p) key offset = ReadPreimage p key offset /\
  LastPreimage (Reset p) = (lastPreimageKey p, lastPreimage p, 2 ^ 64 - 1) /\
  (cache_coherent (Reset p) <-> cache_coherent p) /\
  TotalPreimageSize (Reset p) = TotalPreimageSize p /\
  NumPreimageRequests (Reset p) = NumPreimageRequests p.
Proof.
  split; [|repeat split; intros Hc; exact Hc].
  unfold ReadPreimage, Reset, po_GetPreimage. cbn [lastPreimage lastPreimageKey po
    totalPreimageSize numPreimageRequests lastPreimageOffset].
  destruct (decide (key ≠ lastPreimageKey p)); reflexivity.
Qed.

(** X9.  Neither a hint nor a counted [GetPreimage] disturbs the reads:
    [GetPreimage] returns what the oracle holds under the key and asks the
    oracle once, [Hint] hands the hint to the oracle, and after either a
    call of [ReadPreimage] gives the chunk and the count, or panics, as it
    would have before. *)
Theorem Hint_GetPreimage_keep_cache
    (p : TrackingPreimageOracleReader) (v : list byte) (k key : Hash) (offset : Z) :
  chunk_and_count (ReadPreimage (Hint p v) key offset) =
    chunk_and_count (ReadPreimage p key offset) /\
  chunk_and_count (ReadPreimage (snd (GetPreimage p k)) key offset) =
    chunk_and_count (ReadPreimage p key offset) /\
  fst (GetPreimage p k) = preimages (po p) k /\
  queried (po (snd (GetPreimage p k))) = queried (po p) ++ [k] /\
  hinted (po (Hint p v)) = hinted (po p) ++ [v] /\
  queried (po (Hint p v)) = queried (po p) /\
  LastPreimage (snd (GetPreimage p k)) = LastPreimage p /\
  LastPreimage (Hint p v) = LastPreimage p.
Proof.
  split; [|split; [|repeat split]].
  - unfold ReadPreimage, Hint, po_GetPreimage, po_Hint. cbn [lastPreimage lastPreimageKey po
      totalPreimageSize numPreimageRequests lastPreimageOffset preimages].
    destruct (decide (key ≠ lastPreimageKey p)); cbn [lastPreimage];
      match goal with
      | |- context [decide (0 <= offset <= ?b)] => destruct (decide (0 <= offset <= b))
      end; try reflexivity;
      destruct (copy zero_hash _); reflexivity.
  - unfold ReadPreimage, GetPreimage, po_GetPreimage. cbn [snd lastPreimage lastPreimageKey po
      totalPreimageSize numPreimageRequests lastPreimageOffset preimages].
    destruct (decide (key ≠ lastPreimageKey p)); cbn [lastPreimage];
      match goal with
      | |- context [decide (0 <= offset <= ?b)] => destruct (decide (0 <= offset <= b))
      end; try reflexivity;
      destruct (copy zero_hash _); reflexivity.
Qed.

End ReaderProperties.

(** ** More on the ELF loader *)

Section LoaderSoundness.

Import program.

Context {Memory MemErr T : Type} `{FPVMState Memory T}.
Variable maxAlloc : Z.
Variable SetMemoryRange : Memory -> Z -> list byte -> result MemErr Memory.
Variable initState : Z -> Z -> outcome T.

(** What building the reader of a segment gives. *)
Lemma segmentReader_cases (i : nat) (p : Prog) :
  match segmentReader (MemErr := MemErr) maxAlloc i p with
  | Ret (Ok r) => sizes_ok p /\ allocable maxAlloc p /\ r = image p
  | Ret (Err e) =>
      (e = InvalidPTLoadFileSize i (Filesz p) (Memsz p) /\
       Type_ p = PT_LOAD /\ Memsz p < Filesz p) \/
      (e = NonLoadSizeMismatch i (Filesz p) (Memsz p) /\
       Type_ p ≠ PT_LOAD /\ Filesz p ≠ Memsz p)
  | Panic msg =>
      Type_ p = PT_LOAD /\ Filesz p < Memsz p /\
      (2 ^ 63 <= Memsz p - Filesz p \/ maxAlloc < Memsz p - Filesz p) /\
      msg = "runtime error: makeslice: len out of range"%string
  end.
Proof.
  assert (Hdec : sizes_ok p \/ ~ sizes_ok p) by (unfold sizes_ok; lia).
  destruct Hdec as [Hs|Hn].
  - assert (Hal : allocable maxAlloc p \/
                  (Type_ p = PT_LOAD /\ Filesz p < Memsz p /\
                   (2 ^ 63 <= Memsz p - Filesz p \/ maxAlloc < Memsz p - Filesz p)))
      by (unfold allocable; lia).
    destruct Hal as [Ha|(Hl & Hlt & Hbig)].
    + rewrite (segmentReader_ok maxAlloc i p Hs Ha). auto.
    + rewrite (segmentReader_panics maxAlloc i p Hl Hlt Hbig). auto.
  - apply not_sizes_ok in Hn as [[Hl Hgt]|[Hl Hne]].
    + rewrite segmentReader_load_too_big by assumption. left. auto.
    + rewrite segmentReader_other_mismatch by assumption. right. auto.
Qed.

Lemma explains_skip (p : Prog) (rest : list Prog) (m0 : Memory) (j : nat)
    (e : LoadError MemErr) :
  skipped p -> explains SetMemoryRange rest m0 j e ->
  explains SetMemoryRange (p :: rest) m0 (S j) e.
Proof.
  intros Hsk (q & Hq & Hns & Hpre & He).
  exists q. split; [exact Hq|]. split; [exact Hns|].
  split; [cbn [take]; constructor; [left; exact Hsk | exact Hpre]|].
  destruct e; try exact He.
  destruct He as (Hs & Hlt & m & Hw & Hset).
  split; [exact Hs|]. split; [exact Hlt|]. exists m. split; [|exact Hset].
  cbn [take writeSegments].
  destruct (decide (Type_ p = MIPS_ABIFLAGS)); [exact Hw | contradiction].
Qed.

Lemma explains_written (p : Prog) (rest : list Prog) (m0 m1 : Memory) (j : nat)
    (e : LoadError MemErr) :
  ~ skipped p -> sizes_ok p -> wrap64 (Vaddr p + Memsz p) < HEAP_START ->
  SetMemoryRange m0 (Vaddr p) (image p) = Ok m1 ->
  explains SetMemoryRange rest m1 j e ->
  explains SetMemoryRange (p :: rest) m0 (S j) e.
Proof.
  intros Hnsk Hs Hlt Hset (q & Hq & Hns & Hpre & He).
  exists q. split; [exact Hq|]. split; [exact Hns|].
  split; [cbn [take]; constructor; [right; split; assumption | exact Hpre]|].
  destruct e; try exact He.
  destruct He as (Hs' & Hlt' & m & Hw & Hset').
  split; [exact Hs'|]. split; [exact Hlt'|]. exists m. split; [|exact Hset'].
  cbn [take writeSegments].
  destruct (decide (Type_ p = MIPS_ABIFLAGS)); [contradiction|].
  rewrite Hset. exact Hw.
Qed.

Lemma panics_at_skip (p : Prog) (rest : list Prog) (m0 : Memory) (j : nat) (msg : string) :
  skipped p -> panics_at maxAlloc SetMemoryRange rest m0 j msg ->
  panics_at maxAlloc SetMemoryRange (p :: rest) m0 (S j) msg.
Proof.
  intros Hsk (q & Hq & Hns & Hpre & (m & Hw) & Hrest).
  exists q. split; [exact Hq|]. split; [exact Hns|].
  split; [cbn [take]; constructor; [left; exact Hsk | exact Hpre]|].
  split; [|exact Hrest].
  exists m. cbn [take writeSegments].
  destruct (decide (Type_ p = MIPS_ABIFLAGS)); [exact Hw | contradiction].
Qed.

Lemma panics_at_written (p : Prog) (rest : list Prog) (m0 m1 : Memory) (j : nat)
    (msg : string) :
  ~ skipped p -> sizes_ok p -> wrap64 (Vaddr p + Memsz p) < HEAP_START ->
  SetMemoryRange m0 (Vaddr p) (image p) = Ok m1 ->
  panics_at maxAlloc SetMemoryRange rest m1 j msg ->
  panics_at maxAlloc SetMemoryRange (p :: rest) m0 (S j) msg.
Proof.
  intros Hnsk Hs Hlt Hset (q & Hq & Hns & Hpre & (m & Hw) & Hrest).
  exists q. split; [exact Hq|]. split; [exact Hns|].
  split; [cbn [take]; constructor; [right; split; assumption | exact Hpre]|].
  split; [|exact Hrest].
  exists m. cbn [take writeSegments].
  destruct (decide (Type_ p = MIPS_ABIFLAGS)); [contradiction|].
  rewrite Hset. exact Hw.
Qed.

(** The result of the loop says what the loop did. *)
Lemma loadProgs_sound (progs : list Prog) (i : nat) (s : T) :
  match loadProgs maxAlloc SetMemoryRange i progs s with
  | Ret (Ok s') =>
      Forall passes64 progs /\
      writeSegments SetMemoryRange (GetMemory s) progs = Ok (GetMemory s')
  | Ret (Err e) =>
      exists j, error_index e = (i + j)%nat /\
                explains SetMemoryRange progs (GetMemory s) j e
  | Panic msg =>
      exists j, panics_at maxAlloc SetMemoryRange progs (GetMemory s) j msg
  end.
Proof.
  revert i s. induction progs as [|p rest IH]; intros i s.
  - cbn. split; [constructor | reflexivity].
  - cbn [loadProgs writeSegments].
    destruct (decide (Type_ p = MIPS_ABIFLAGS)) as [Hsk|Hns].
    + specialize (IH (S i) s).
      destruct (loadProgs maxAlloc SetMemoryRange (S i) rest s) as [[s'|e]|msg].
      * destruct IH as [Hall Hw]. split; [constructor; [left; exact Hsk | exact Hall] | exact Hw].
      * destruct IH as (j & Hj & He). exists (S j). split; [lia|].
        apply explains_skip; assumption.
      * destruct IH as (j & Hp). exists (S j). apply panics_at_skip; assumption.
    + pose proof (segmentReader_cases i p) as Hr.
      destruct (segmentReader maxAlloc i p) as [[r|e]|msg].
      * destruct Hr as (Hs & _ & ->).
        destruct (decide (wrap64 (Vaddr p + Memsz p) >= HEAP_START)) as [Hge|Hlt].
        { exists 0%nat. split; [cbn; lia|]. exists p. cbn [take].
          repeat split; try solve [constructor | assumption | lia]. }
        assert (Hlt' : wrap64 (Vaddr p + Memsz p) < HEAP_START) by lia.
        destruct (SetMemoryRange (GetMemory s) (Vaddr p) (image p)) as [m1|err] eqn:Hset.
        -- specialize (IH (S i) (withMemory s m1)). rewrite GetMemory_withMemory in IH.
           destruct (loadProgs maxAlloc SetMemoryRange (S i) rest (withMemory s m1))
             as [[s'|e]|msg].
           ++ destruct IH as [Hall Hw].
              split; [constructor; [right; split; assumption | exact Hall] | exact Hw].
           ++ destruct IH as (j & Hj & He). exists (S j). split; [lia|].
              apply (explains_written p rest (GetMemory s) m1); assumption.
           ++ destruct IH as (j & Hp). exists (S j).
              apply (panics_at_written p rest (GetMemory s) m1); assumption.
        -- exists 0%nat. split; [cbn; lia|]. exists p. cbn [take].
           repeat split; try solve [constructor | assumption].
           exists (GetMemory s). split; [reflexivity | exact Hset].
      * exists 0%nat.
        destruct Hr as [(-> & Hl & Hgt)|(-> & Hl & Hne)];
          (split; [cbn; lia|]); exists p; cbn [take];
          repeat split; solve [constructor | assumption].
      * destruct Hr as (Hl & Hlt & Hbig & ->).
        exists 0%nat, p. cbn [take writeSegments].
        split; [reflexivity|]. split; [exact Hns|]. split; [constructor|].
        split; [exists (GetMemory s); reflexivity|]. auto.
Qed.

(** X11.  What [LoadELF] returns tells what it did, for every file.  On
    success every segment was skipped or had accepted sizes and an end, in
    64-bit arithmetic, below [HEAP_START], and the memory of the result is
    the memory of the initial state with the images written in order.  An
    error carries the index of a segment that is not skipped, counted with
    the skipped ones, whose predecessors all passed and which has the defect
    and the values the error reports.  A panic, once the initial state is
    made, is that of [make] at a [PT_LOAD] segment, not skipped, whose
    predecessors all passed and were written and whose padding does not fit
    an [int] or is more than the run time allocates. *)
Theorem LoadELF_result_sound (f : File) (s0 : T) :
  initState (Entry f) HEAP_START = Ret s0 ->
  (forall s', LoadELF maxAlloc SetMemoryRange initState f = Ret (Ok s') ->
     Forall passes64 (Progs f) /\
     writeSegments SetMemoryRange (GetMemory s0) (Progs f) = Ok (GetMemory s')) /\
  (forall e, LoadELF maxAlloc SetMemoryRange initState f = Ret (Err e) ->
     explains SetMemoryRange (Progs f) (GetMemory s0) (error_index e) e) /\
  (forall msg, LoadELF maxAlloc SetMemoryRange initState f = Panic msg ->
     exists j, panics_at maxAlloc SetMemoryRange (Progs f) (GetMemory s0) j msg).
Proof.
  intros Hinit. unfold LoadELF. rewrite Hinit. cbn [mbind outcome_bind].
  pose proof (loadProgs_sound (Progs f) 0 s0) as Hsound.
  split; [|split].
  - intros s' Heq. rewrite Heq in Hsound. exact Hsound.
  - intros e Heq. rewrite Heq in Hsound.
    destruct Hsound as (j & Hj & He). cbn in Hj. rewrite Hj. exact He.
  - intros msg Heq. rewrite Heq in Hsound. exact Hsound.
Qed.

(** X12.  Segments of type [MIPS_ABIFLAGS] are passed over unchecked: a
    file whose segments all have that type, whatever their sizes and
    addresses, loads without an error and without a write. *)
Theorem LoadELF_skipped_unchecked (f : File) (s0 : T) :
  initState (Entry f) HEAP_START = Ret s0 ->
  Forall skipped (Progs f) ->
  LoadELF maxAlloc SetMemoryRange initState f = Ret (Ok s0).
Proof.
  intros Hinit Hall. unfold LoadELF. rewrite Hinit. cbn [mbind outcome_bind].
  generalize 0%nat. induction Hall as [|p rest Hp _ IH]; intros i.
  - reflexivity.
  - rewrite loadProgs_cons_skipped by exact Hp. apply IH.
Qed.

(** X13.  For a segment that passes the size checks and whose reader
    serves at least [Filesz] bytes, what is written is exactly [Memsz] bytes
    long: the first [Filesz] bytes of the segment, then zeros. *)
Theorem segmentReader_image (i : nat) (p : Prog) (r : list byte) :
  segmentReader (MemErr := MemErr) maxAlloc i p = Ret (Ok r) ->
  0 <= Filesz p < 2 ^ 63 ->
  Filesz p <= Z.of_nat (length (content p)) ->
  Z.of_nat (length r) = Memsz p /\
  take (Z.to_nat (Filesz p)) r = take (Z.to_nat (Filesz p)) (content p) /\
  drop (Z.to_nat (Filesz p)) r = repeat x00 (Z.to_nat (Memsz p - Filesz p)).
Proof.
  intros Hr Hf Hc. pose proof (segmentReader_cases i p) as Hcases. rewrite Hr in Hcases.
  destruct Hcases as (Hs & _ & ->).
  assert (Hsec : sectionBytes p = take (Z.to_nat (Filesz p)) (content p)).
  { unfold sectionBytes, to_int64, wrap64. rewrite Z.mod_small by lia.
    destruct (Filesz p <? 2 ^ 63) eqn:E; [|apply Z.ltb_ge in E; lia].
    destruct (Filesz p <? 0) eqn:E0; [apply Z.ltb_lt in E0; lia | reflexivity]. }
  assert (Hlen : length (sectionBytes p) = Z.to_nat (Filesz p)).
  { rewrite Hsec, length_take. lia. }
  unfold image. rewrite Hsec in *.
  repeat split.
  - rewrite length_app, repeat_length, Hlen. unfold sizes_ok in Hs. lia.
  - rewrite take_app_length' by (symmetry; exact Hlen). reflexivity.
  - rewrite drop_app_length' by (symmetry; exact Hlen). reflexivity.
Qed.

End LoaderSoundness.

(** The padded example loads, so its segments pass; the example with a
    padding of [2^60 + 1] bytes panics, at its first segment. *)
Lemma LoadELF_result_sound_witness :
  Forall program.passes64 (program.Progs program.padded_elf) /\
  exists j,
    program.panics_at program.maxAlloc64 program.logSetMemoryRange
      (program.Progs program.huge_padding_elf) [] j
      "runtime error: makeslice: len out of range".
Proof.
  split.
  - destruct (LoadELF_result_sound program.maxAlloc64 program.logSetMemoryRange
                (CreateInitialState []) program.padded_elf _ eq_refl) as [Hok _].
    eapply proj1, Hok. vm_compute. reflexivity.
  - destruct (LoadELF_result_sound program.maxAlloc64 program.logSetMemoryRange
                (CreateInitialState []) program.huge_padding_elf _ eq_refl)
      as (_ & _ & Hpanic).
    apply Hpanic. vm_compute. reflexivity.
Defined.

Lemma LoadELF_skipped_unchecked_witness :
  exists s0,
    CreateInitialState [] 0x400000 program.HEAP_START = Ret s0 /\
    program.loadIntoLog program.flags_only_elf = Ret (Ok s0).
Proof.
  eexists. split; [reflexivity|].
  apply (LoadELF_skipped_unchecked program.maxAlloc64 program.logSetMemoryRange
           (CreateInitialState []) program.flags_only_elf); [reflexivity | repeat constructor].
Defined.

Lemma segmentReader_image_witness :
  exists r : list byte,
    program.segmentReader (MemErr := unit) program.maxAlloc64 1
      {| program.Type_ := program.PT_LOAD; program.Vaddr := 0x400000;
         program.Filesz := 2; program.Memsz := 4; program.content := [x01; x02] |} =
      Ret (Ok r) /\
    Z.of_nat (length r) = 4.
Proof.
  set (p := {| program.Type_ := program.PT_LOAD; program.Vaddr := 0x400000;
               program.Filesz := 2; program.Memsz := 4; program.content := [x01; x02] |}).
  assert (Hr : program.segmentReader (MemErr := unit) program.maxAlloc64 1 p =
               Ret (Ok [x01; x02; x00; x00]))
    by (vm_compute; reflexivity).
  assert (Hf : 0 <= program.Filesz p < 2 ^ 63) by (cbn; lia).
  assert (Hc : program.Filesz p <= Z.of_nat (length (program.content p))) by (cbn; lia).
  exists [x01; x02; x00; x00]. split; [exact Hr|].
  exact (proj1 (segmentReader_image program.maxAlloc64 1 p _ Hr Hf Hc)).
Defined.

Section LoaderState.

Import program.

Context {memory_Memory MemErr : Type}.
Variable maxAlloc : Z.
Variable SetMemoryRange : memory_Memory -> Z -> list byte -> result MemErr memory_Memory.
Variable NewMemory : memory_Memory.

Lemma setMemory_Memory (s : @State memory_Memory) : setMemory s (multithreaded.Memory s) = s.
Proof. destruct s. reflexivity. Qed.

Lemma setMemory_setMemory (s : @State memory_Memory) (m1 m2 : memory_Memory) :
  setMemory (setMemory s m1) m2 = setMemory s m2.
Proof. reflexivity. Qed.

(** The loop changes the memory of the state and nothing else. *)
Lemma loadProgs_only_memory (progs : list Prog) (i : nat) (s s' : @State memory_Memory) :
  loadProgs maxAlloc SetMemoryRange i progs s = Ret (Ok s') ->
  s' = setMemory s (multithreaded.Memory s').
Proof.
  revert i s. induction progs as [|p rest IH]; intros i s Hload.
  - cbn in Hload. injection Hload as <-. symmetry. apply setMemory_Memory.
  - cbn [loadProgs] in Hload.
    destruct (decide (Type_ p = MIPS_ABIFLAGS)); [exact (IH _ _ Hload)|].
    destruct (segmentReader maxAlloc i p) as [[r|]|]; [|discriminate..].
    destruct (decide (wrap64 (Vaddr p + Memsz p) >= HEAP_START)); [discriminate|].
    destruct (SetMemoryRange (GetMemory s) (Vaddr p) r) as [m|]; [|discriminate].
    apply IH in Hload. cbn [withMemory State_FPVMState] in Hload.
    rewrite setMemory_setMemory in Hload. exact Hload.
Qed.

(** X10.  Loading writes memory and nothing else.  The state [LoadELF]
    returns, when it starts from [CreateInitialState], is the initial state
    with another memory: one thread, whose PC is the entry point of the file
    and whose next PC is four bytes further, the heap at [HEAP_START], not
    exited. *)
Theorem LoadELF_only_memory (f : File) (s' : @State memory_Memory) :
  LoadELF maxAlloc SetMemoryRange (CreateInitialState NewMemory) f = Ret (Ok s') ->
  (exists s0, CreateInitialState NewMemory (Entry f) HEAP_START = Ret s0 /\
              s' = setMemory s0 (multithreaded.Memory s')) /\
  GetPC s' = Ret (Entry f) /\
  getCpu s' = Ret {| PC := Entry f; NextPC := wrap64 (Entry f + 4); LO := 0; HI := 0 |} /\
  Heap s' = HEAP_START /\
  threadCount s' = 1%nat /\
  GetExited s' = false /\
  GetStep s' = 0.
Proof.
  unfold LoadELF. rewrite CreateInitialState_returns.
  cbn [mbind outcome_bind]. intros Hload.
  apply loadProgs_only_memory in Hload.
  split; [eexists; split; [reflexivity | exact Hload]|].
  rewrite Hload. repeat apply conj; reflexivity.
Qed.

End LoaderState.

Lemma LoadELF_only_memory_witness :
  exists s',
    program.loadIntoLog program.padded_elf = Ret (Ok s') /\
    GetPC s' = Ret 0x400000 /\ Heap s' = program.HEAP_START.
Proof.
  eexists. split; [vm_compute; reflexivity|].
  refine (let H := LoadELF_only_memory program.maxAlloc64 program.logSetMemoryRange []
                     program.padded_elf _ _ in _).
  split; [exact (proj1 (proj2 H)) | exact (proj1 (proj2 (proj2 (proj2 H))))].
  Unshelve. vm_compute. reflexivity.
Defined.

(** ** The configure command *)

Section ConfigureProperties.

Import deployer.

Context {Client KeyGenerator ChainIntent Config E : Type}.
Variable world : @World Client KeyGenerator ChainIntent Config E.

Lemma eqb_empty (s : string) : (s =? "")%string = true <-> s = ""%string.
Proof. apply String.eqb_eq. Qed.

Lemma eqb_nonempty (s : string) : (s =? "")%string = false <-> s ≠ ""%string.
Proof. apply String.eqb_neq. Qed.

(** X14.  The three required flags are checked before anything is done.
    The command makes no call at all exactly when [infile], the mnemonic or
    the L1 RPC URL is empty, and then returns the error of the first of them
    that is empty, in this order; an empty [outfile] is never an error. *)
Theorem ConfigureCLI_validates_first (ctx : FlagName -> string) :
  (fst (ConfigureCLI world ctx) = [] <->
   ctx InfileFlagName = ""%string \/ ctx ConfigureMnemonicFlagName = ""%string \/
   ctx L1RPCURLFlagName = ""%string) /\
  (ctx InfileFlagName = ""%string ->
   ConfigureCLI world ctx = ([], Some (Errorf "infile must be specified"))) /\
  (ctx InfileFlagName ≠ ""%string -> ctx ConfigureMnemonicFlagName = ""%string ->
   ConfigureCLI world ctx = ([], Some (Errorf "mnemonic must be specified"))) /\
  (ctx InfileFlagName ≠ ""%string -> ctx ConfigureMnemonicFlagName ≠ ""%string ->
   ctx L1RPCURLFlagName = ""%string ->
   ConfigureCLI world ctx = ([], Some (Errorf "l1-rpc-url must be specified"))).
Proof.
  unfold ConfigureCLI.
  destruct (ctx InfileFlagName =? "")%string eqn:Ei;
    [apply eqb_empty in Ei | apply eqb_nonempty in Ei].
  { repeat split; try tauto; intros; contradiction. }
  destruct (ctx ConfigureMnemonicFlagName =? "")%string eqn:Em;
    [apply eqb_empty in Em | apply eqb_nonempty in Em].
  { repeat split; try tauto; intros; contradiction. }
  destruct (ctx L1RPCURLFlagName =? "")%string eqn:Eu;
    [apply eqb_empty in Eu | apply eqb_nonempty in Eu].
  { repeat split; try tauto; intros; contradiction. }
  split; [|repeat split; intros; contradiction].
  split; [|tauto].
  destruct (Dial world _); [|discriminate].
  destruct (ReadDeploymentState world _) as [st|]; [|discriminate].
  destruct (Intent st); [|discriminate].
  destruct (NewMnemonicKeyGenerator world _); [|discriminate].
  destruct (NewDeployConfig world _ _ _); discriminate.
Qed.

(** The run in which every step succeeds up to the write. *)
Lemma ConfigureCLI_reaches_write (ctx : FlagName -> string)
    (l1Client : Client) (state : DeploymentState) (intent : ChainIntent)
    (keygen : KeyGenerator) (deployConfig : Config) :
  ctx InfileFlagName ≠ ""%string -> ctx ConfigureMnemonicFlagName ≠ ""%string ->
  ctx L1RPCURLFlagName ≠ ""%string ->
  Dial world (ctx L1RPCURLFlagName) = Ok l1Client ->
  ReadDeploymentState world (ctx InfileFlagName) = Ok state ->
  Intent state = Some intent ->
  NewMnemonicKeyGenerator world (ctx ConfigureMnemonicFlagName) = Ok keygen ->
  NewDeployConfig world keygen l1Client intent = Ok deployConfig ->
  ConfigureCLI world ctx =
    ([ CallDial (ctx L1RPCURLFlagName);
       CallReadDeploymentState (ctx InfileFlagName);
       CallNewMnemonicKeyGenerator (ctx ConfigureMnemonicFlagName);
       CallNewDeployConfig keygen l1Client intent;
       CallWriteDeploymentState (target ctx)
         {| Intent := Some intent; DeployConfig := deployConfig |} ],
     match WriteDeploymentState world (target ctx)
             {| Intent := Some intent; DeployConfig := deployConfig |} with
     | Some err => Some (Returned err)
     | None => None
     end).
Proof.
  intros Hi Hm Hu Hd Hr Hint Hk Hc. unfold ConfigureCLI, target.
  apply eqb_nonempty in Hi, Hm, Hu. rewrite Hi, Hm, Hu, Hd, Hr, Hint, Hk, Hc.
  reflexivity.
Qed.

(** A run without a write. *)
Lemma ConfigureCLI_write_or_not (ctx : FlagName -> string) :
  (exists l1Client state intent keygen deployConfig,
     ctx InfileFlagName ≠ ""%string /\ ctx ConfigureMnemonicFlagName ≠ ""%string /\
     ctx L1RPCURLFlagName ≠ ""%string /\
     Dial world (ctx L1RPCURLFlagName) = Ok l1Client /\
     ReadDeploymentState world (ctx InfileFlagName) = Ok state /\
     Intent state = Some intent /\
     NewMnemonicKeyGenerator world (ctx ConfigureMnemonicFlagName) = Ok keygen /\
     NewDeployConfig world keygen l1Client intent = Ok deployConfig) \/
  (Forall (fun c => ~ is_write c) (fst (ConfigureCLI world ctx)) /\
   exists e, snd (ConfigureCLI world ctx) = Some e).
Proof.
  unfold ConfigureCLI.
  destruct (ctx InfileFlagName =? "")%string eqn:Ei;
    [right; split; [constructor | eexists; reflexivity] | apply eqb_nonempty in Ei].
  destruct (ctx ConfigureMnemonicFlagName =? "")%string eqn:Em;
    [right; split; [constructor | eexists; reflexivity] | apply eqb_nonempty in Em].
  destruct (ctx L1RPCURLFlagName =? "")%string eqn:Eu;
    [right; split; [constructor | eexists; reflexivity] | apply eqb_nonempty in Eu].
  destruct (Dial world _) as [c|] eqn:Hd;
    [|right; split; [repeat constructor; cbn; tauto | eexists; reflexivity]].
  destruct (ReadDeploymentState world _) as [st|] eqn:Hr;
    [|right; split; [repeat constructor; cbn; tauto | eexists; reflexivity]].
  destruct (Intent st) as [intent|] eqn:Hint;
    [|right; split; [repeat constructor; cbn; tauto | eexists; reflexivity]].
  destruct (NewMnemonicKeyGenerator world _) as [k|] eqn:Hk;
    [|right; split; [repeat constructor; cbn; tauto | eexists; reflexivity]].
  destruct (NewDeployConfig world _ _ _) as [dc|] eqn:Hc;
    [|right; split; [repeat constructor; cbn; tauto | eexists; reflexivity]].
  left. exists c, st, intent, k, dc. repeat split; assumption.
Qed.

(** X15.  The command writes only when every earlier step has succeeded.
    A deployment state that it writes goes to [outfile], or to [infile] when
    [outfile] is empty, and holds the intent read from [infile] with the
    deploy config made from it; the write is the last of five calls, in the
    order dial, read, key generator, deploy config, write, and what the
    command returns is what the write returns.  When the command returns
    nil, that write has been made. *)
Theorem ConfigureCLI_write (ctx : FlagName -> string) :
  (forall path written,
     In (CallWriteDeploymentState path written) (fst (ConfigureCLI world ctx)) ->
     exists l1Client state intent keygen deployConfig,
       Dial world (ctx L1RPCURLFlagName) = Ok l1Client /\
       ReadDeploymentState world (ctx InfileFlagName) = Ok state /\
       Intent state = Some intent /\
       NewMnemonicKeyGenerator world (ctx ConfigureMnemonicFlagName) = Ok keygen /\
       NewDeployConfig world keygen l1Client intent = Ok deployConfig /\
       path = target ctx /\
       written = {| Intent := Some intent; DeployConfig := deployConfig |} /\
       fst (ConfigureCLI world ctx) =
         [ CallDial (ctx L1RPCURLFlagName);
           CallReadDeploymentState (ctx InfileFlagName);
           CallNewMnemonicKeyGenerator (ctx ConfigureMnemonicFlagName);
           CallNewDeployConfig keygen l1Client intent;
           CallWriteDeploymentState path written ] /\
       snd (ConfigureCLI world ctx) =
         match WriteDeploymentState world path written with
         | Some err => Some (Returned err)
         | None => None
         end) /\
  (snd (ConfigureCLI world ctx) = None ->
   exists written,
     In (CallWriteDeploymentState (target ctx) written) (fst (ConfigureCLI world ctx)) /\
     WriteDeploymentState world (target ctx) written = None).
Proof.
  destruct (ConfigureCLI_write_or_not ctx)
    as [(c & st & intent & k & dc & Hi & Hm & Hu & Hd & Hr & Hint & Hk & Hc)|[Hnw [e He]]].
  - rewrite (ConfigureCLI_reaches_write ctx c st intent k dc Hi Hm Hu Hd Hr Hint Hk Hc).
    cbn [fst snd]. split.
    + intros path written Hin. cbn [In] in Hin.
      destruct Hin as [Hin|[Hin|[Hin|[Hin|[Hin|[]]]]]]; try discriminate.
      injection Hin as <- <-.
      exists c, st, intent, k, dc. repeat split; assumption.
    + intros Hnone. eexists. split; [cbn [In]; do 4 right; left; reflexivity|].
      destruct (WriteDeploymentState world _ _); [discriminate | reflexivity].
  - split.
    + intros path written Hin. exfalso.
      rewrite Forall_forall in Hnw. apply list_elem_of_In in Hin. exact (Hnw _ Hin I).
    + intros Hnone. rewrite He in Hnone. discriminate.
Qed.

End ConfigureProperties.

(** A run with [outfile] left empty, in a world where every call succeeds:
    the state is written back to [infile]. *)
Lemma ConfigureCLI_write_witness :
  exists written,
    In (deployer.CallWriteDeploymentState "state.json"%string written)
       (fst (deployer.ConfigureCLI deployer.kind_world deployer.in_place_ctx)) /\
    written = {| deployer.Intent := Some 7%nat; deployer.DeployConfig := 8%nat |}.
Proof.
  eexists. split; [vm_compute; do 4 right; left; reflexivity|].
  match goal with
  | |- ?w = _ =>
      destruct (proj1 (ConfigureCLI_write deployer.kind_world deployer.in_place_ctx)
                  "state.json"%string w)
        as (c & st & intent & k & dc & _ & Hr & Hint & _ & Hc & _ & Hw & _)
  end.
  - vm_compute. do 4 right. left. reflexivity.
  - injection Hr as <-. injection Hint as <-. injection Hc as <-. exact Hw.
Defined.

(** ** The heap check at its edges *)

Section HeapCheckEdges.

Import program.

Context {Memory MemErr T : Type} `{FPVMState Memory T}.
Variable maxAlloc : Z.
Variable SetMemoryRange : Memory -> Z -> list byte -> result MemErr Memory.

(** X16.  The heap check compares the 64-bit sum of address and memory
    size with [HEAP_START], the bound included, and comes after the padding
    has been made.  So, of the segments with accepted sizes that are not
    skipped: one whose padding does not fit an [int] or is more than the run
    time allocates makes the loop panic wherever it ends; of the others, one
    whose last byte is the byte before [HEAP_START] is refused as
    overlapping the heap, and one whose end runs past the end of the address
    space, by less than [HEAP_START], is written. *)
Theorem heap_check_edges (i : nat) (p : Prog) (rest : list Prog) (s : T) :
  wf_prog p -> ~ skipped p -> sizes_ok p ->
  (Filesz p < Memsz p ->
   2 ^ 63 <= Memsz p - Filesz p \/ maxAlloc < Memsz p - Filesz p ->
   loadProgs maxAlloc SetMemoryRange i (p :: rest) s =
     Panic "runtime error: makeslice: len out of range") /\
  (allocable maxAlloc p -> Vaddr p + Memsz p = HEAP_START ->
   loadProgs maxAlloc SetMemoryRange i (p :: rest) s =
     Ret (Err (OverlapsHeap i (Vaddr p) HEAP_START (Memsz p)))) /\
  (allocable maxAlloc p -> 2 ^ 64 <= Vaddr p + Memsz p < 2 ^ 64 + HEAP_START ->
   loadProgs maxAlloc SetMemoryRange i (p :: rest) s =
     match SetMemoryRange (GetMemory s) (Vaddr p) (image p) with
     | Ok m => loadProgs maxAlloc SetMemoryRange (S i) rest (withMemory s m)
     | Err err => Ret (Err (ReadSegmentFailed i err))
     end).
Proof.
  intros (Hv & _ & Hm) Hns Hs.
  split; [|split].
  - intros Hlt Hbig. destruct Hs as [Heq|[Hl _]]; [lia|].
    rewrite loadProgs_cons_refused by exact Hns.
    rewrite (segmentReader_panics maxAlloc i p Hl Hlt Hbig). reflexivity.
  - intros Ha Hend. cbn [loadProgs].
    destruct (decide (Type_ p = MIPS_ABIFLAGS)); [contradiction|].
    rewrite (segmentReader_ok maxAlloc i p Hs Ha).
    rewrite Hend. change (wrap64 HEAP_START) with HEAP_START.
    destruct (decide (HEAP_START >= HEAP_START)); [reflexivity | lia].
  - intros Ha Hend. cbn [loadProgs].
    destruct (decide (Type_ p = MIPS_ABIFLAGS)); [contradiction|].
    rewrite (segmentReader_ok maxAlloc i p Hs Ha).
    assert (Hw : wrap64 (Vaddr p + Memsz p) = Vaddr p + Memsz p - 2 ^ 64).
    { unfold wrap64.
      replace (Vaddr p + Memsz p) with ((Vaddr p + Memsz p - 2 ^ 64) + 1 * 2 ^ 64) at 1 by lia.
      rewrite Z.mod_add by lia. apply Z.mod_small. split; [lia|].
      pose proof HEAP_START_lt. lia. }
    rewrite Hw.
    destruct (decide (Vaddr p + Memsz p - 2 ^ 64 >= HEAP_START)); [lia | reflexivity].
Qed.

End HeapCheckEdges.

(** The three cases on segments of a few bytes and on the segment with a
    padding of [2^60 + 1] bytes: the padded segment that ends at
    [HEAP_START] is refused, the padded segment that runs two bytes past the
    end of the address space is written with its two zero bytes, and the
    segment with the large padding panics. *)
Lemma heap_check_edges_witness :
  program.loadProgs program.maxAlloc64 program.logSetMemoryRange 0
    [program.boundary_padded_prog] (CreateEmptyState []) =
    Ret (Err (program.OverlapsHeap 0 (program.HEAP_START - 4) program.HEAP_START 4)) /\
  program.loadProgs program.maxAlloc64 program.logSetMemoryRange 0
    [program.wrapping_padded_prog] (CreateEmptyState []) =
    Ret (Ok (setMemory (CreateEmptyState []) [(2 ^ 64 - 2, [x01; x02; x00; x00])])) /\
  program.loadProgs program.maxAlloc64 program.logSetMemoryRange 0
    [program.huge_padding_prog] (CreateEmptyState []) =
    Panic "runtime error: makeslice: len out of range".
Proof.
  assert (Hfits : forall p, program.Memsz p - program.Filesz p = 2 ->
                            program.allocable program.maxAlloc64 p).
  { intros p Hp _ _. rewrite Hp. unfold program.maxAlloc64. lia. }
  split; [|split].
  - refine (proj1 (proj2 (heap_check_edges program.maxAlloc64 program.logSetMemoryRange 0
                            program.boundary_padded_prog [] (CreateEmptyState []) _ _ _)) _ _).
    + repeat split; vm_compute; first [reflexivity | discriminate].
    + unfold program.skipped. cbn. discriminate.
    + right. split; reflexivity.
    + apply Hfits. reflexivity.
    + reflexivity.
  - refine (proj2 (proj2 (heap_check_edges program.maxAlloc64 program.logSetMemoryRange 0
                            program.wrapping_padded_prog [] (CreateEmptyState []) _ _ _)) _ _).
    + repeat split; vm_compute; first [reflexivity | discriminate].
    + unfold program.skipped. cbn. discriminate.
    + right. split; reflexivity.
    + apply Hfits. reflexivity.
    + split; vm_compute; first [reflexivity | discriminate].
  - refine (proj1 (heap_check_edges program.maxAlloc64 program.logSetMemoryRange 0
                     program.huge_padding_prog [] (CreateEmptyState []) _ _ _) _ _).
    + repeat split; vm_compute; first [reflexivity | discriminate].
    + unfold program.skipped. cbn. discriminate.
    + right. split; reflexivity.
    + reflexivity.
    + right. vm_compute. reflexivity.
Defined.

(** ** Further examples *)

Lemma wf_thread_CreateEmptyThread : wf_thread CreateEmptyThread.
Proof.
  unfold wf_thread, is_uint64, CreateEmptyThread, exec.FutexEmptyAddr.
  cbn [Thread.ThreadId Thread.FutexAddr Thread.FutexVal Thread.FutexTimeoutStep
       Thread.Cpu Thread.Registers PC NextPC LO HI].
  repeat apply conj; try lia.
  intros i. rewrite vlookup_replicate. lia.
Qed.

(** The first thread has 64-bit fields. *)
Lemma serializeThread_injective_witness :
  wf_thread CreateEmptyThread /\ CreateEmptyThread = CreateEmptyThread.
Proof.
  split; [exact wf_thread_CreateEmptyThread|].
  exact (proj2 (serializeThread_injective CreateEmptyThread CreateEmptyThread)
           wf_thread_CreateEmptyThread wf_thread_CreateEmptyThread eq_refl).
Defined.

(** With no flag set the command stops at [infile]. *)
Lemma ConfigureCLI_validates_first_witness :
  deployer.ConfigureCLI deployer.kind_world (fun _ => ""%string) =
    ([], Some (deployer.Errorf "infile must be specified")).
Proof.
  exact (proj1 (proj2 (ConfigureCLI_validates_first deployer.kind_world (fun _ => ""%string)))
           eq_refl).
Defined.
